(** * ITK-SNAP: the event bucket and the image IO wizard model

    A shallow embedding of [EventBucket] (EventBucket.cxx) and of the
    operations declared in [ImageIOWizardModel.h], with the properties their
    specification states about them. *)

From stdpp Require Import base decidable option numbers list gmap strings
  pretty.

(** ** Event objects

    An [itk::EventObject] is used by the bucket through three virtual
    methods only: [GetEventName], [MakeObject] and [CheckEvent].  All three
    depend on the dynamic class of the object and on nothing else, so an event
    object is represented by its class.  The classes are declared with
    ITK's [itkEventMacro(classname, super)], as in

      itkEventMacro(RegistrationProgressEvent, IRISEvent)

    and the macro gives each class the method

      virtual bool CheckEvent(const ::itk::EventObject *e) const
        { return dynamic_cast<const Self *>(e) != NULL; }

    so that [evt.CheckEvent(e)] holds exactly when the class of [e] is the
    class of [evt] or is derived from it. *)

Class EventHierarchy (EventClass : Type) := {
  event_eq_dec :: EqDecision EventClass;
  (** the proper base classes of a class: [super], the [super] of [super],
      and so on *)
  Superclasses : EventClass → list EventClass
}.

(** A pointer to an [itk::Object]: an address, [NULL] being address zero.
    The bucket compares such pointers and never follows them. *)
Definition ObjectPtr := N.
Definition NULL : ObjectPtr := 0%N.

Module EventBucket.

Section Bucket.
Context {EventClass : Type} `{EventHierarchy EventClass}.

(** [dynamic_cast<const target *>(obj) != NULL] for an object of class [c] *)
Definition is_a (c target : EventClass) : bool :=
  bool_decide (c = target) || bool_decide (target ∈ Superclasses c).

(** [evt.CheckEvent(e)] *)
Definition CheckEvent (evt e : EventClass) : bool := is_a e evt.

(** [evt.MakeObject()]: a new object of the class of [evt] *)
Definition MakeObject (evt : EventClass) : EventClass := evt.

(** [std::pair<const itk::EventObject *, const itk::Object *>] *)
Definition BucketEntry : Type := EventClass * ObjectPtr.

(** Modelled from the spec: the declaration of [m_Bucket] is in
    EventBucket.h, which is not among the sources.  The code uses it as an
    associative container of [BucketEntry] ([insert] of one entry,
    [size], [clear], iteration), the spec calls it a set of occurrences in
    which each stored kind is an independent copy.  The first component of
    an entry is the address of the copy made by [MakeObject], which differs
    from the address of every copy already stored, so [insert] always adds
    an element.  The container is therefore a list of the entries it
    holds, the newest first; the results of the methods below do not
    depend on the order of iteration. *)
Definition Bucket : Type := list BucketEntry.

(** A new [EventBucket]: the constructor does nothing *)
Definition empty : Bucket := [].

(** [void EventBucket::Clear()] *)
Definition Clear (m_Bucket : Bucket) : Bucket := [].

(** [bool EventBucket::HasEvent(evt, source) const]: the linear search.  The
    two event names the loop reads are not used. *)
Fixpoint HasEvent (m_Bucket : Bucket) (evt : EventClass) (source : ObjectPtr)
  : bool :=
  match m_Bucket with
  | [] => false
  | entry :: rest =>
      if CheckEvent evt entry.1
         && ((source =? NULL)%N || (source =? entry.2)%N)
      then true
      else HasEvent rest evt source
  end.

(** [bool EventBucket::IsEmpty() const] *)
Definition IsEmpty (m_Bucket : Bucket) : bool :=
  bool_decide (length m_Bucket = 0).

(** [void EventBucket::PutEvent(evt, source)] *)
Definition PutEvent (m_Bucket : Bucket) (evt : EventClass)
    (source : ObjectPtr) : Bucket :=
  if negb (HasEvent m_Bucket evt source)
  then (MakeObject evt, source) :: m_Bucket
  else m_Bucket.

(** *** Sequences of calls

    The public methods of the class, as calls made on one bucket, with
    what each of them returns. *)
Inductive Call :=
| CallClear
| CallHasEvent (evt : EventClass) (source : ObjectPtr)
| CallIsEmpty
| CallPutEvent (evt : EventClass) (source : ObjectPtr).

Inductive Reply :=
| RVoid
| RBool (b : bool).

Definition call (m_Bucket : Bucket) (c : Call) : Reply * Bucket :=
  match c with
  | CallClear => (RVoid, Clear m_Bucket)
  | CallHasEvent evt source => (RBool (HasEvent m_Bucket evt source), m_Bucket)
  | CallIsEmpty => (RBool (IsEmpty m_Bucket), m_Bucket)
  | CallPutEvent evt source => (RVoid, PutEvent m_Bucket evt source)
  end.

(** the bucket after a sequence of calls, the first call first *)
Definition run (m_Bucket : Bucket) (cs : list Call) : Bucket :=
  fold_left (λ b c, (call b c).2) cs m_Bucket.

(** Whether, in a sequence of calls made from bucket [b], some [PutEvent]
    whose pair the bucket did not match at the time of the call has
    occurred after the last [Clear]; [pending] is the answer for the calls
    already made. *)
Fixpoint unmatched_put_since_clear (b : Bucket) (pending : bool)
    (cs : list Call) : bool :=
  match cs with
  | [] => pending
  | c :: cs' =>
      let pending' :=
        match c with
        | CallClear => false
        | CallPutEvent evt source =>
            pending || negb (HasEvent b evt source)
        | _ => pending
        end in
      unmatched_put_since_clear (call b c).2 pending' cs'
  end.

(** whether a call is [Clear] *)
Definition is_clear (c : Call) : bool :=
  match c with CallClear => true | _ => false end.

(** *** The words of the specification

    "[general] is equal to or a generalization of [specific]": the class
    [specific] is the class [general] or is derived from it. *)
Definition generalizes (general specific : EventClass) : bool :=
  is_a specific general.

(** "the queried source is any (null), or equals the stored source" *)
Definition source_condition (queried stored : ObjectPtr) : Prop :=
  queried = NULL ∨ queried = stored.

(** "[HasEvent(kind, source)] returns true if some stored entry's kind
    matches [kind] via hierarchical matching (stored kind is equal to or a
    generalization of the queried kind) and (queried source is any or equals
    the stored source)", as an equivalence. *)
Definition HasEvent_as_specified (b : Bucket) (kind : EventClass)
    (source : ObjectPtr) : Prop :=
  HasEvent b kind source = true ↔
  ∃ entry, entry ∈ b ∧ generalizes entry.1 kind = true
           ∧ source_condition source entry.2.

(** "at most one entry per distinct (event_kind, source_identity) pair" *)
Definition one_entry_per_pair (b : list BucketEntry) : Prop :=
  ∀ kind source,
    length (filter (λ entry, entry = (kind, source)) b) ≤ 1.

(** *** The calls of a sequence, seen from outside *)

(** the test that the loop of [HasEvent] makes on one entry *)
Definition entry_matches (entry : BucketEntry) (evt : EventClass)
    (source : ObjectPtr) : bool :=
  CheckEvent evt entry.1 && ((source =? NULL)%N || (source =? entry.2)%N).

(** The pairs given to [PutEvent] since the last [Clear], the newest first,
    after the calls [cs] made when the pairs [puts] had been given: what the
    bucket would hold if [PutEvent] stored every pair it is given. *)
Definition record_puts (puts : list BucketEntry) (cs : list Call)
  : list BucketEntry :=
  fold_left (λ acc c,
               match c with
               | CallClear => []
               | CallPutEvent evt source => (evt, source) :: acc
               | _ => acc
               end) cs puts.

Definition puts_since_clear (cs : list Call) : list BucketEntry :=
  record_puts [] cs.

(** The base classes of a base class are base classes: what [Superclasses]
    satisfies when it lists the base classes of a hierarchy of C++
    classes. *)
Definition ancestors_closed : Prop :=
  ∀ c p q : EventClass,
    p ∈ Superclasses c → q ∈ Superclasses p → q ∈ Superclasses c.

End Bucket.

(** *** Printing

    [std::ostream& operator<<(std::ostream& sink, const EventBucket& eb)].
    The stream is the text written to it so far.  [GetEventName] gives the
    name of the class of an event object, and [print_pointer] is the text
    the stream writes for the address of an object, which the C++
    implementation chooses.  [entries] are the entries of the bucket in the
    order in which the iterator visits them. *)
Section Printing.
Context {EventClass : Type}.
Variable GetEventName : EventClass → string.
Variable print_pointer : ObjectPtr → string.

(** the loop: an entry, and a separator unless the entry is the last *)
Fixpoint print_entries (sink : string)
    (entries : list (@BucketEntry EventClass)) : string :=
  match entries with
  | [] => sink
  | entry :: rest =>
      let sink :=
        sink +:+ GetEventName entry.1 +:+ "(" +:+ print_pointer entry.2
             +:+ ")" in
      let sink :=
        match rest with
        | [] => sink
        | _ :: _ => sink +:+ ", "
        end in
      print_entries sink rest
  end.

Definition operator_shl (sink : string)
    (entries : list (@BucketEntry EventClass)) : string :=
  print_entries (sink +:+ "EventBucket[") entries +:+ "]".

(** the text of one entry *)
Definition entry_text (entry : @BucketEntry EventClass) : string :=
  GetEventName entry.1 +:+ "(" +:+ print_pointer entry.2 +:+ ")".

End Printing.

End EventBucket.

(** ** The event bucket and the objects it owns

    The same methods with the addresses written out: an entry of the bucket
    holds the address of an event object made by [MakeObject] with [new],
    and [Clear] deletes the object of every entry.  Reading through the
    address of a deleted object and deleting an object twice are undefined
    in C++: here the method has no result ([None]). *)
Module EventBucketMemory.

Section Memory.
Context {EventClass : Type} `{EventHierarchy EventClass}.

(** Modelled from the spec: the declaration of [m_Bucket] is in
    EventBucket.h, which is not among the sources; the container is a set of
    pairs of addresses, as [insert] with one argument, [clear], [size] and
    the iteration show.  [heap] holds the event objects that were made for
    the bucket and are not deleted, by address, each with its class. *)
Record State := {
  heap : gmap N EventClass;
  m_Bucket : gset (N * ObjectPtr)
}.

(** A new [EventBucket] *)
Definition new_bucket : State := {| heap := ∅; m_Bucket := ∅ |}.

(** [delete(it->first)], for the entries in the order of the iteration *)
Fixpoint delete_objects (addresses : list N) (h : gmap N EventClass)
  : option (gmap N EventClass) :=
  match addresses with
  | [] => Some h
  | p :: rest =>
      match h !! p with
      | Some _ => delete_objects rest (delete p h)
      | None => None
      end
  end.

(** [void EventBucket::Clear()] *)
Definition Clear (st : State) : option State :=
  h ← delete_objects (elements (m_Bucket st)).*1 (heap st);
  Some {| heap := h; m_Bucket := ∅ |}.

(** the loop of [HasEvent] over the entries in the order of the iteration;
    each entry visited is read through its address *)
Fixpoint search (h : gmap N EventClass) (entries : list (N * ObjectPtr))
    (evt : EventClass) (source : ObjectPtr) : option bool :=
  match entries with
  | [] => Some false
  | entry :: rest =>
      match h !! entry.1 with
      | None => None
      | Some stored =>
          if EventBucket.CheckEvent evt stored
             && ((source =? NULL)%N || (source =? entry.2)%N)
          then Some true
          else search h rest evt source
      end
  end.

(** [bool EventBucket::HasEvent(evt, source) const] *)
Definition HasEvent (st : State) (evt : EventClass) (source : ObjectPtr)
  : option bool :=
  search (heap st) (elements (m_Bucket st)) evt source.

(** [bool EventBucket::IsEmpty() const] *)
Definition IsEmpty (st : State) : bool :=
  bool_decide (size (m_Bucket st) = 0).

(** [void EventBucket::PutEvent(evt, source)]; [p] is the address of the
    object that [new] makes in [MakeObject], when [MakeObject] is called *)
Definition PutEvent (st : State) (evt : EventClass) (source : ObjectPtr)
    (p : N) : option State :=
  found ← HasEvent st evt source;
  if negb found
  then Some {| heap := <[p := EventBucket.MakeObject evt]> (heap st);
               m_Bucket := {[ (p, source) ]} ∪ m_Bucket st |}
  else Some st.

(** the entries of the bucket with the class of each event object in place
    of its address, in the order of the iteration *)
Definition entries (st : State) : list (EventClass * ObjectPtr) :=
  omap (λ entry, stored ← heap st !! entry.1; Some (stored, entry.2))
       (elements (m_Bucket st)).

(** The bucket owns its objects: the address in every entry is the address
    of an object that is not deleted, every such object is in an entry, and
    in one entry only. *)
Definition owns_its_objects (st : State) : Prop :=
  (∀ p source, (p, source) ∈ m_Bucket st → is_Some (heap st !! p)) ∧
  (∀ p, is_Some (heap st !! p) → ∃ source, (p, source) ∈ m_Bucket st) ∧
  (∀ p source source',
      (p, source) ∈ m_Bucket st → (p, source') ∈ m_Bucket st →
      source = source').

(** *** Sequences of calls

    A call of a method on the bucket, with the address that [new] gives if
    the call makes an object. *)
Definition call (st : State) (c : @EventBucket.Call EventClass) (p : N)
  : option State :=
  match c with
  | EventBucket.CallClear => Clear st
  | EventBucket.CallHasEvent evt source =>
      _ ← HasEvent st evt source; Some st
  | EventBucket.CallIsEmpty => Some st
  | EventBucket.CallPutEvent evt source => PutEvent st evt source p
  end.

Fixpoint run (st : State) (cs : list (@EventBucket.Call EventClass * N))
  : option State :=
  match cs with
  | [] => Some st
  | (c, p) :: rest => st' ← call st c p; run st' rest
  end.

(** Whether, in the calls made from state [st], the address that goes with
    each [PutEvent] is the address of no object at the time of the call.
    Nothing is asked of the calls that come after a call that has no
    result. *)
Fixpoint addresses_new (st : State)
    (cs : list (@EventBucket.Call EventClass * N)) : bool :=
  match cs with
  | [] => true
  | (c, p) :: rest =>
      match c with
      | EventBucket.CallPutEvent _ _ => bool_decide (heap st !! p = None)
      | _ => true
      end
      && match call st c p with
         | Some st' => addresses_new st' rest
         | None => true
         end
  end.

End Memory.

End EventBucketMemory.

(** ** The image IO wizard model

    ImageIOWizardModel.h declares the class, its state and its methods and
    documents them; the bodies of the methods (ImageIOWizardModel.cxx) and
    the services the class calls (GuidedNativeImageIO, the DICOM series
    enumeration, the file system) are outside the sources. *)

Module ImageIOWizardModel.

(** [GuidedNativeImageIO::FileFormat]: an enumeration whose last value,
    [FORMAT_COUNT], also stands for "format not determined". *)
Definition FileFormat := nat.

(** [enum Mode { LOAD, SAVE }] *)
Inductive Mode := LOAD | SAVE.

#[global] Instance Mode_eq_dec : EqDecision Mode.
Proof. solve_decision. Defined.

(** Modelled from the spec: the exceptions the operations throw are
    declared outside the sources; these are the failures the specification
    lists. *)
Inductive IRISException :=
| DecodeError (diagnostic : string)
| EncodeError (diagnostic : string)
| ValidationError (diagnostic : string)
| DirectoryReadError
| IndexOutOfRange
| UninitializedModelError
| RegistrationPreconditionError.

(** What a method call ends in: a value, or an exception. *)
Inductive Outcome (A : Type) :=
| Returns (a : A)
| Throws (e : IRISException).
Arguments Returns {A} a.
Arguments Throws {A} e.

Section Model.
Context {Image SeriesDescriptor : Type}.

(** Modelled from the spec: what the guided IO answers when asked to read
    an image (GuidedNativeImageIO.h is not among the sources): the image and
    the non-fatal warnings of the read, or a diagnostic. *)
Inductive ReadResult :=
| ReadOk (image : Image) (warnings : list string)
| ReadFailed (diagnostic : string).

(** Modelled from the spec: the services the model consumes
    (GuidedNativeImageIO.h, the DICOM enumeration and the file system are
    not among the sources), as the contracts the specification gives them:
    the table of formats with its names and extensions, the existence
    test, [SniffMagicNumber], [Decode], [Enumerate] (nothing when the
    directory cannot be read) and [MaterializeSeries]. *)
Record Services := {
  FORMAT_COUNT : FileFormat;
  FormatName : FileFormat → string;
  FormatExtensions : FileFormat → list string;
  FileExists : string → bool;
  SniffMagicNumber : string → FileFormat;
  Decode : string → FileFormat → ReadResult;
  Enumerate : string → option (list SeriesDescriptor);
  MaterializeSeries : SeriesDescriptor → ReadResult
}.

(** The calls a method makes to the guided IO and to the DICOM
    enumeration, in the order it makes them. *)
Inductive ServiceCall :=
| SniffMagicNumberCalled (path : string)
| DecodeCalled (path : string) (fmt : FileFormat)
| EnumerateCalled (path : string)
| MaterializeSeriesCalled (series : SeriesDescriptor).

(** Modelled from the spec: [AbstractLoadImageDelegate]
    (ImageIODelegates.h is not among the sources), through the two checks
    the specification gives it: whether a format can be handled, and whether
    a loaded image is valid (a diagnostic when it is not). *)
Record LoadDelegate := {
  CanHandleFileFormat : FileFormat → bool;
  CheckImageValidity : Image → option string
}.

(** The state of the model: the protected members of the class that the
    operations below read or write. *)
Record Model := {
  m_Mode : Mode;
  m_LoadDelegate : option LoadDelegate;
  m_Warnings : list string;
  m_Registry : gmap string FileFormat;
  m_SelectedFormat : FileFormat;
  m_DicomContents : list SeriesDescriptor;
  m_LoadedImage : option Image
}.

(** A method: from the state before the call to its outcome, the state
    after it and the service calls made.  What a method wrote before it
    threw stays written. *)
Definition Method (A : Type) : Type :=
  Model → Outcome A * Model * list ServiceCall.

Definition ret {A} (a : A) : Method A := λ m, (Returns a, m, []).

Definition bind {A B} (x : Method A) (k : A → Method B) : Method B :=
  λ m,
    match x m with
    | (Returns a, m', calls) =>
        let '(r, m'', calls') := k a m' in (r, m'', calls ++ calls')
    | (Throws e, m', calls) => (Throws e, m', calls)
    end.

Definition throw {A} (e : IRISException) : Method A :=
  λ m, (Throws e, m, []).

Definition get : Method Model := λ m, (Returns m, m, []).

Definition modify (f : Model → Model) : Method unit :=
  λ m, (Returns tt, f m, []).

(** a call to a service, with the value the service gave *)
Definition service {A} (c : ServiceCall) (a : A) : Method A :=
  λ m, (Returns a, m, [c]).

End Model.

Arguments ReadResult : clear implicits.
Arguments Services : clear implicits.
Arguments ServiceCall : clear implicits.
Arguments LoadDelegate : clear implicits.
Arguments Model : clear implicits.
Arguments Method : clear implicits.

Notation "x ←← c ; k" := (bind c (λ x, k))
  (at level 100, c at next level, right associativity, only parsing).
Notation "c ;;; k" := (bind c (λ _, k))
  (at level 100, right associativity, only parsing).

(** whether [s] ends in [suffix] *)
Fixpoint has_suffix (suffix s : string) : bool :=
  bool_decide (s = suffix) ||
  match s with
  | EmptyString => false
  | String _ s' => has_suffix suffix s'
  end.

Section Operations.
Context {Image SeriesDescriptor : Type}.
Variable io : Services Image SeriesDescriptor.

#[local] Abbreviation Model := (Model Image SeriesDescriptor).
#[local] Abbreviation Method := (Method Image SeriesDescriptor).
#[local] Abbreviation ServiceCall := (ServiceCall SeriesDescriptor).

(** the formats of the enumeration, [FORMAT_COUNT] left out *)
Definition formats : list FileFormat := seq 0 (FORMAT_COUNT io).

(** Modelled from the spec: [GetFileFormatByName], whose body is not among
    the sources: the format that has the name, [FORMAT_COUNT] when none
    has. *)
Definition GetFileFormatByName (formatName : string) : FileFormat :=
  default (FORMAT_COUNT io)
    (find (λ fmt, bool_decide (FormatName io fmt = formatName)) formats).

(** [virtual std::string GetDefaultFormatForSave() const] *)
Definition GetDefaultFormatForSave : string := "NiFTI".

(** Modelled from the spec: "match the filename extension against each
    supported format's registered extension list"; the first format one of
    whose extensions, after a dot, ends the file name. *)
Definition MatchExtension (fname : string) : FileFormat :=
  default (FORMAT_COUNT io)
    (find (λ fmt,
             existsb (λ ext, has_suffix ("." +:+ ext) fname)
                     (FormatExtensions io fmt))
          formats).

(** [bool IsLoadMode() const] and [bool IsSaveMode() const] *)
Definition IsLoadMode (m : Model) : bool := bool_decide (m_Mode m = LOAD).
Definition IsSaveMode (m : Model) : bool := bool_decide (m_Mode m = SAVE).

(** Modelled from the spec: the body of [GuessFileFormat] is in
    ImageIOWizardModel.cxx, which is not among the sources.  The order of
    the steps is the one the declaration documents (ImageIOWizardModel.h):
    "In load mode, if the file does not exist, this will return
    FORMAT_COUNT, i.e., failure to determine format.  If it exists, the
    format will be determined using registry information (if open before),
    magic number, and extension, in turn.  If in save mode, format is
    detected using registry and extension only.  The last parameter is
    only considered in Load mode."  The fall back in save mode to the
    default format for saving is step 4 of the specification.
    [fileExists] is the value the caller's variable holds before the
    call; the second component of the result is the value it holds after
    it. *)
Definition GuessFileFormat (fname : string) (fileExists : bool)
  : Method (FileFormat * bool) :=
  m ←← get;
  let fileExists' :=
    if IsLoadMode m then FileExists io fname else fileExists in
  if IsLoadMode m && negb fileExists' then ret (FORMAT_COUNT io, fileExists')
  else
    match m_Registry m !! fname with
    | Some hinted => ret (hinted, fileExists')
    | None =>
        sniffed ←← (if IsLoadMode m
                    then service (SniffMagicNumberCalled fname)
                                 (SniffMagicNumber io fname)
                    else ret (FORMAT_COUNT io));
        if bool_decide (sniffed ≠ FORMAT_COUNT io)
        then ret (sniffed, fileExists')
        else
          let by_extension := MatchExtension fname in
          if bool_decide (by_extension ≠ FORMAT_COUNT io)
          then ret (by_extension, fileExists')
          else if IsSaveMode m
          then ret (GetFileFormatByName GetDefaultFormatForSave, fileExists')
          else ret (FORMAT_COUNT io, fileExists')
    end.

Definition append_warnings (ws : list string) (m : Model) : Model :=
  {| m_Mode := m_Mode m; m_LoadDelegate := m_LoadDelegate m;
     m_Warnings := m_Warnings m ++ ws; m_Registry := m_Registry m;
     m_SelectedFormat := m_SelectedFormat m;
     m_DicomContents := m_DicomContents m;
     m_LoadedImage := m_LoadedImage m |}.

Definition set_LoadedImage (image : Image) (m : Model) : Model :=
  {| m_Mode := m_Mode m; m_LoadDelegate := m_LoadDelegate m;
     m_Warnings := m_Warnings m; m_Registry := m_Registry m;
     m_SelectedFormat := m_SelectedFormat m;
     m_DicomContents := m_DicomContents m;
     m_LoadedImage := Some image |}.

Definition set_DicomContents (series : list SeriesDescriptor) (m : Model)
  : Model :=
  {| m_Mode := m_Mode m; m_LoadDelegate := m_LoadDelegate m;
     m_Warnings := m_Warnings m; m_Registry := m_Registry m;
     m_SelectedFormat := m_SelectedFormat m;
     m_DicomContents := series;
     m_LoadedImage := m_LoadedImage m |}.

(** the load delegate, or [UninitializedModelError] when the model has not
    been initialized for load *)
Definition active_load_delegate : Method (LoadDelegate Image) :=
  m ←← get;
  match m_LoadDelegate m with
  | Some delegate => ret delegate
  | None => throw UninitializedModelError
  end.

(** Modelled from the spec: what a load does with the result of the
    guided IO: "on decode success, runs the active delegate's validity
    check; any validation failure appends a structured entry to the
    warnings list and fails the operation with ValidationError (the
    partially-loaded image is discarded, not exposed); on decode failure,
    fails with DecodeError carrying the underlying diagnostic text;
    warnings that are non-fatal are appended but do not fail the
    operation". *)
Definition finish_load (delegate : LoadDelegate Image)
    (r : ReadResult Image) : Method unit :=
  match r with
  | ReadFailed diagnostic => throw (DecodeError diagnostic)
  | ReadOk image warnings =>
      modify (append_warnings warnings);;;
      match CheckImageValidity delegate image with
      | Some diagnostic =>
          modify (append_warnings [diagnostic]);;;
          throw (ValidationError diagnostic)
      | None => modify (set_LoadedImage image)
      end
  end.

(** Modelled from the spec: [ProcessDicomDirectory] "invokes the
    enumeration service once, replacing any previously stored series list;
    fails with DirectoryReadError if the path is not a readable DICOM
    directory". *)
Definition ProcessDicomDirectory (filename : string) : Method unit :=
  r ←← service (EnumerateCalled filename) (Enumerate io filename);
  match r with
  | Some series => modify (set_DicomContents series)
  | None => throw DirectoryReadError
  end.

(** Modelled from the spec: the body of [LoadDicomSeries] is not among the
    sources.  It "requires 0 <= index < series_count; fails with
    IndexOutOfRange otherwise; on success delegates to the guided-I/O
    service to materialize the image from the series' constituent files
    and forwards the result through the same load pipeline as a
    single-file load".  [series] is an [int]. *)
Definition LoadDicomSeries (filename : string) (series : Z) : Method unit :=
  m ←← get;
  if bool_decide (series < 0)%Z
     || bool_decide (Z.of_nat (length (m_DicomContents m)) ≤ series)%Z
  then throw IndexOutOfRange
  else
    match m_DicomContents m !! Z.to_nat series with
    | None => throw IndexOutOfRange
    | Some descriptor =>
        delegate ←← active_load_delegate;
        r ←← service (MaterializeSeriesCalled descriptor)
                     (MaterializeSeries io descriptor);
        finish_load delegate r
    end.

(** *** The words of the specification *)

(** "Given a hinted path, [GuessFileFormat] returns the hinted format": the
    call returns, and the format it returns is the one of the hint. *)
Definition hinted_format_returned (m : Model) (fname : string)
    (fileExists : bool) : Prop :=
  ∀ hinted, m_Registry m !! fname = Some hinted →
    ∃ fileExists',
      (GuessFileFormat fname fileExists m).1.1 = Returns (hinted, fileExists').

(** The format found for a path that has no hint, by magic number (in load
    mode), extension and, in save mode, the default format for saving. *)
Definition detected_format (m : Model) (fname : string) : FileFormat :=
  if IsLoadMode m && bool_decide (SniffMagicNumber io fname ≠ FORMAT_COUNT io)
  then SniffMagicNumber io fname
  else if bool_decide (MatchExtension fname ≠ FORMAT_COUNT io)
  then MatchExtension fname
  else if IsSaveMode m
  then GetFileFormatByName GetDefaultFormatForSave
  else FORMAT_COUNT io.

End Operations.

End ImageIOWizardModel.

(** ** The events of the wizard

    [RegistrationProgressEvent] is declared in ImageIOWizardModel.h as
    derived from [IRISEvent].  The base classes of [IRISEvent] are declared
    outside the sources and are not listed. *)
Inductive SNAPEvent := IRISEvent | RegistrationProgressEvent.

#[global] Instance SNAPEvent_eq_dec : EqDecision SNAPEvent.
Proof. solve_decision. Defined.

#[global] Instance SNAPEvent_hierarchy : EventHierarchy SNAPEvent := {|
  Superclasses c :=
    match c with
    | IRISEvent => []
    | RegistrationProgressEvent => [IRISEvent]
    end
|}.

(** ** A wizard session

    The services of a session with three formats, a few files, one DICOM
    directory of three series, and a delegate that rejects the third
    series. *)
Module Session.
Import ImageIOWizardModel.

Definition io : Services string string := {|
  FORMAT_COUNT := 3;
  FormatName fmt :=
    match fmt with
    | 0 => "NiFTI" | 1 => "DICOM" | 2 => "MetaImage" | _ => ""
    end;
  FormatExtensions fmt :=
    match fmt with
    | 0 => ["nii"; "nii.gz"] | 1 => ["dcm"] | 2 => ["mha"; "mhd"] | _ => []
    end;
  FileExists path := bool_decide (path ∈ ["scan.nii"; "torn.nii"; "study"]);
  SniffMagicNumber path := if bool_decide (path = "scan.nii") then 0 else 3;
  Decode path fmt :=
    if bool_decide (path = "scan.nii")
    then ReadOk "scan" ["unusual spacing"]
    else ReadFailed "cannot read";
  Enumerate path :=
    if bool_decide (path = "study")
    then Some ["series 0"; "series 1"; "series 2"]
    else None;
  MaterializeSeries series := ReadOk series []
|}.

Definition delegate : LoadDelegate string := {|
  CanHandleFileFormat fmt := true;
  CheckImageValidity image :=
    if bool_decide (image = "series 2") then Some "geometry mismatch" else None
|}.

(** the model as initialized for load; the file "gone.nii" was opened before
    as DICOM and is no longer there *)
Definition initialized : Model string string := {|
  m_Mode := LOAD;
  m_LoadDelegate := Some delegate;
  m_Warnings := [];
  m_Registry := {[ "gone.nii" := 1 ]};
  m_SelectedFormat := 3;
  m_DicomContents := [];
  m_LoadedImage := None
|}.

(** the model after the directory "study" was browsed *)
Definition browsed : Model string string :=
  (ProcessDicomDirectory io "study" initialized).1.2.

(** the model initialized for save, with a hint for "out.mha" *)
Definition saving : Model string string := {|
  m_Mode := SAVE;
  m_LoadDelegate := None;
  m_Warnings := [];
  m_Registry := {[ "out.mha" := 0 ]};
  m_SelectedFormat := 3;
  m_DicomContents := [];
  m_LoadedImage := None
|}.

End Session.

(** ** A bucket with its objects

    The bucket after [PutEvent] of a [RegistrationProgressEvent] from the
    object at address 7, the event object being made at address 16. *)
Module BucketSession.
Import EventBucketMemory.

Definition one_event : @State SNAPEvent := {|
  heap := <[ 16%N := RegistrationProgressEvent ]> ∅;
  m_Bucket := {[ (16%N, 7%N) ]} ∪ ∅
|}.

(** [GetEventName] for the events of the wizard: the name of the class *)
Definition event_name (evt : SNAPEvent) : string :=
  match evt with
  | IRISEvent => "IRISEvent"
  | RegistrationProgressEvent => "RegistrationProgressEvent"
  end.

End BucketSession.

(** ** Properties of the event bucket *)

Section BucketFacts.
Import EventBucket.
Context {EventClass : Type} `{EventHierarchy EventClass}.

#[local] Abbreviation Bucket := (@Bucket EventClass).
#[local] Abbreviation Call := (@Call EventClass).

(** [Bucket] and [BucketEntry] name a list of pairs: the lemmas on lists
    apply once the names are unfolded. *)
#[local] Ltac as_list := unfold EventBucket.Bucket, BucketEntry in *.

Lemma is_a_refl (c : EventClass) : is_a c c = true.
Proof. unfold is_a. rewrite bool_decide_eq_true_2; done. Qed.

Lemma CheckEvent_refl (evt : EventClass) : CheckEvent evt evt = true.
Proof. apply is_a_refl. Qed.

(** the test made on one entry by the loop of [HasEvent] *)
Lemma entry_test_true (evt stored : EventClass) (source held : ObjectPtr) :
  CheckEvent evt stored && ((source =? NULL)%N || (source =? held)%N) = true ↔
  CheckEvent evt stored = true ∧ source_condition source held.
Proof.
  unfold source_condition.
  rewrite andb_true_iff, orb_true_iff, !N.eqb_eq. reflexivity.
Qed.

(** an entry that passes the test is found by the loop of [HasEvent] *)
Lemma HasEvent_found (b : Bucket) (evt : EventClass) (source : ObjectPtr)
    (entry : BucketEntry) :
  entry ∈ b → CheckEvent evt entry.1 = true →
  source_condition source entry.2 →
  HasEvent b evt source = true.
Proof.
  intros Hin Hkind Hsource.
  induction b as [|first rest IH]; [by apply elem_of_nil in Hin|].
  cbn [HasEvent].
  destruct (CheckEvent evt first.1 && _) eqn:Htest; [done|].
  apply elem_of_cons in Hin as [->|Hin]; [|by apply IH].
  assert (CheckEvent evt first.1
          && ((source =? NULL)%N || (source =? first.2)%N) = true) as Hpass
    by (by apply entry_test_true).
  congruence.
Qed.

(** the loop of [HasEvent] returns true only at an entry that passes the
    test *)
Lemma HasEvent_finds (b : Bucket) (evt : EventClass) (source : ObjectPtr) :
  HasEvent b evt source = true →
  ∃ entry, entry ∈ b ∧ CheckEvent evt entry.1 = true
           ∧ source_condition source entry.2.
Proof.
  induction b as [|first rest IH]; [discriminate|].
  cbn [HasEvent].
  destruct (CheckEvent evt first.1 && _) eqn:Htest.
  - intros _. apply entry_test_true in Htest.
    exists first. split; [apply list_elem_of_here | exact Htest].
  - intros Hrest. destruct (IH Hrest) as (entry & Hin & Hpass).
    exists entry. split; [by apply list_elem_of_further | exact Hpass].
Qed.

Lemma HasEvent_stored (b : Bucket) (evt : EventClass) (source : ObjectPtr) :
  (evt, source) ∈ b → HasEvent b evt source = true.
Proof.
  intros Hin. apply (HasEvent_found b evt source (evt, source) Hin).
  - apply CheckEvent_refl.
  - by right.
Qed.

Lemma PutEvent_matched (b : Bucket) (evt : EventClass) (source : ObjectPtr) :
  HasEvent b evt source = true → PutEvent b evt source = b.
Proof. intros Hhas. unfold PutEvent. by rewrite Hhas. Qed.

Lemma PutEvent_unmatched (b : Bucket) (evt : EventClass) (source : ObjectPtr) :
  HasEvent b evt source = false → PutEvent b evt source = (evt, source) :: b.
Proof. intros Hhas. unfold PutEvent. by rewrite Hhas. Qed.

Lemma HasEvent_after_PutEvent (b : Bucket) (evt : EventClass)
    (source : ObjectPtr) :
  HasEvent (PutEvent b evt source) evt source = true.
Proof.
  destruct (HasEvent b evt source) eqn:Hhas.
  - by rewrite PutEvent_matched.
  - rewrite PutEvent_unmatched by done.
    apply HasEvent_stored, list_elem_of_here.
Qed.

Lemma PutEvent_idempotent (b : Bucket) (evt : EventClass)
    (source : ObjectPtr) :
  PutEvent (PutEvent b evt source) evt source = PutEvent b evt source.
Proof. apply PutEvent_matched, HasEvent_after_PutEvent. Qed.

Lemma filter_absent (entry : BucketEntry) (b : Bucket) :
  entry ∉ b → filter (λ e, e = entry) b = [].
Proof.
  as_list. induction b as [|e rest IH]; [done|].
  rewrite not_elem_of_cons. intros [Hne Hrest].
  rewrite filter_cons_False by congruence. auto.
Qed.

Lemma one_entry_per_pair_PutEvent (b : Bucket) (evt : EventClass)
    (source : ObjectPtr) :
  one_entry_per_pair b → one_entry_per_pair (PutEvent b evt source).
Proof.
  as_list. intros Hone. destruct (HasEvent b evt source) eqn:Hhas.
  - by rewrite PutEvent_matched.
  - rewrite PutEvent_unmatched by done. intros kind src.
    destruct (decide ((evt, source) = (kind, src))) as [<-|Hne].
    + rewrite filter_cons_True by done.
      rewrite filter_absent; [simpl; lia|].
      intros Hin. apply HasEvent_stored in Hin. congruence.
    + rewrite filter_cons_False by done. apply Hone.
Qed.

Lemma one_entry_per_pair_call (b : Bucket) (c : Call) :
  one_entry_per_pair b → one_entry_per_pair (call b c).2.
Proof.
  intros Hone. destruct c; simpl; try done.
  - intros kind src. simpl. lia.
  - by apply one_entry_per_pair_PutEvent.
Qed.

Lemma one_entry_per_pair_run (cs : list Call) (b : Bucket) :
  one_entry_per_pair b → one_entry_per_pair (run b cs).
Proof.
  revert b. induction cs as [|c cs IH]; intros b Hone; [done|].
  apply IH, one_entry_per_pair_call, Hone.
Qed.

Lemma IsEmpty_run (cs : list Call) (b : Bucket) (pending : bool) :
  IsEmpty b = negb pending →
  IsEmpty (run b cs) = negb (unmatched_put_since_clear b pending cs).
Proof.
  revert b pending. induction cs as [|c cs IH]; intros b pending Hinv; [done|].
  simpl. apply IH. destruct c as [|evt src| |evt src]; simpl; try done.
  destruct (HasEvent b evt src) eqn:Hhas.
  - rewrite PutEvent_matched by done. by rewrite orb_false_r.
  - rewrite PutEvent_unmatched by done. by rewrite orb_true_r.
Qed.

Lemma PutEvent_extends (b : Bucket) (evt : EventClass) (source : ObjectPtr) :
  ∃ new, PutEvent b evt source = new ++ b.
Proof.
  destruct (HasEvent b evt source) eqn:Hhas.
  - exists []. by rewrite PutEvent_matched.
  - exists [(evt, source)]. by rewrite PutEvent_unmatched.
Qed.

Lemma run_extends (cs : list Call) (b : Bucket) :
  forallb (λ c, negb (is_clear c)) cs = true →
  ∃ new, run b cs = new ++ b.
Proof.
  revert b. induction cs as [|c cs IH]; intros b Hcs.
  - by exists [].
  - simpl in Hcs. apply andb_true_iff in Hcs as [Hc Hcs].
    destruct (IH (call b c).2 Hcs) as [new Hnew]. simpl. rewrite Hnew.
    destruct c as [|evt src| |evt src]; simpl in *; try done;
      try by exists new.
    destruct (PutEvent_extends b evt src) as [new' ->].
    exists (new ++ new'). by rewrite app_assoc.
Qed.

(** C1, as amended: [HasEvent(k, s)] returns true if and only if some stored
    entry [(k', s')] has a kind [k'] that is equal to or a specialization of
    the queried kind [k] (the queried kind is equal to or a generalization of
    the stored one), and the queried source [s] is null or equals the stored
    source [s']. *)
Theorem HasEvent_matches_specializations (b : Bucket) (k : EventClass)
    (s : ObjectPtr) :
  HasEvent b k s = true ↔
  ∃ entry, entry ∈ b ∧ generalizes k entry.1 = true
           ∧ source_condition s entry.2.
Proof.
  split.
  - intros Hhas. destruct (HasEvent_finds b k s Hhas) as (entry & Hin & Hpass).
    by exists entry.
  - intros (entry & Hin & Hkind & Hsource).
    by apply (HasEvent_found b k s entry).
Qed.

(** C2: when [k1] is a generalization of [k2], after [PutEvent(k2, s)] on an
    empty bucket [HasEvent(k1, s)] returns true, and for a source [other]
    that is not null [HasEvent(k1, other)] returns true only if
    [other = s]. *)
Theorem HasEvent_generalization_after_PutEvent (k1 k2 : EventClass)
    (s : ObjectPtr) :
  generalizes k1 k2 = true →
  HasEvent (PutEvent empty k2 s) k1 s = true ∧
  ∀ other, other ≠ NULL →
    HasEvent (PutEvent empty k2 s) k1 other = true → other = s.
Proof.
  intros Hgen. rewrite PutEvent_unmatched by done. split.
  - apply (HasEvent_found _ k1 s (k2, s)).
    + apply list_elem_of_here.
    + exact Hgen.
    + by right.
  - intros other Hother Hhas.
    apply HasEvent_finds in Hhas as (entry & Hin & _ & Hsrc).
    apply list_elem_of_singleton in Hin as ->.
    destruct Hsrc as [Hnull|Heq]; [contradiction | exact Heq].
Qed.

(** C3: a bucket holds at most one entry for each pair of an event kind and
    a source: the empty bucket does, every operation ([PutEvent],
    [HasEvent], [Clear], [IsEmpty]) keeps it so, and so does every sequence
    of them; [PutEvent] is idempotent, and after two calls of it with the
    same pair the bucket holds exactly one entry for the pair. *)
Theorem one_entry_per_pair_invariant :
  one_entry_per_pair (@empty EventClass) ∧
  (∀ (b : Bucket) (c : Call),
      one_entry_per_pair b → one_entry_per_pair (call b c).2) ∧
  (∀ cs : list Call, one_entry_per_pair (run empty cs)) ∧
  (∀ (b : Bucket) kind source,
      PutEvent (PutEvent b kind source) kind source = PutEvent b kind source) ∧
  (∀ (b : Bucket) kind source,
      one_entry_per_pair b →
      length (filter (λ entry, entry = (kind, source))
                 (PutEvent (PutEvent b kind source) kind source)) ≤ 1).
Proof.
  assert (one_entry_per_pair (@empty EventClass)) as Hempty
    by (intros kind source; simpl; lia).
  split; [exact Hempty|]. split; [apply one_entry_per_pair_call|].
  split; [intros cs; by apply one_entry_per_pair_run|].
  split; [apply PutEvent_idempotent|].
  intros b kind source Hone.
  by do 2 apply one_entry_per_pair_PutEvent.
Qed.

(** C8: right after [Clear()], [IsEmpty()] returns true; and after any
    sequence of calls made on a new bucket, [IsEmpty()] returns true if and
    only if no [PutEvent] with a pair that the bucket did not match at the
    time has been called since the last [Clear] (or since construction). *)
Theorem IsEmpty_iff_no_unmatched_put :
  (∀ b : Bucket, IsEmpty (Clear b) = true) ∧
  (∀ cs : list Call,
      IsEmpty (run empty cs) = true ↔
      unmatched_put_since_clear empty false cs = false).
Proof.
  split; [done|]. intros cs.
  rewrite (IsEmpty_run cs empty false) by done.
  by destruct (unmatched_put_since_clear _ _ _).
Qed.

(** C9: the null source is not symmetric and the result depends on the
    order of the calls.  For a source [s] that is not null: after
    [PutEvent(k, s)] on an empty bucket [HasEvent(k, NULL)] returns true and
    [PutEvent(k, NULL)] leaves the bucket as it is, holding the entry
    [(k, s)] only and no entry [(k, NULL)]; after [PutEvent(k, NULL)] on an
    empty bucket [HasEvent(k, s)] returns false and [PutEvent(k, s)] adds a
    second entry; the two final buckets do not hold the same entries. *)
Theorem null_source_order_dependent (k : EventClass) (s : ObjectPtr) :
  s ≠ NULL →
  let s_first := PutEvent (PutEvent empty k s) k NULL in
  let null_first := PutEvent (PutEvent empty k NULL) k s in
  HasEvent (PutEvent empty k s) k NULL = true ∧
  s_first = PutEvent empty k s ∧
  s_first = [(k, s)] ∧
  ((k, NULL) ∉ s_first) ∧
  HasEvent (PutEvent empty k NULL) k s = false ∧
  length null_first = 2 ∧
  (k, s) ∈ null_first ∧ (k, NULL) ∈ null_first ∧
  ¬ (null_first ≡ₚ s_first).
Proof.
  intros Hs s_first null_first. as_list.
  assert (HasEvent [(k, s)] k NULL = true) as Hnull.
  { cbn [HasEvent fst snd]. by rewrite CheckEvent_refl. }
  assert (HasEvent [(k, NULL)] k s = false) as Hsrc.
  { cbn [HasEvent fst snd]. rewrite CheckEvent_refl.
    apply N.eqb_neq in Hs. by rewrite Hs. }
  assert (s_first = [(k, s)]) as ->.
  { unfold s_first, empty. rewrite (PutEvent_unmatched []) by done.
    by apply PutEvent_matched. }
  assert (null_first = [(k, s); (k, NULL)]) as ->.
  { unfold null_first, empty. rewrite (PutEvent_unmatched []) by done.
    by apply PutEvent_unmatched. }
  unfold empty. rewrite !(PutEvent_unmatched []) by done.
  split; [done|]. split; [done|]. split; [done|]. split.
  { intros Hin%list_elem_of_singleton. congruence. }
  split; [done|]. split; [done|].
  split; [apply list_elem_of_here|].
  split; [apply list_elem_of_further, list_elem_of_here|].
  intros Hperm%Permutation_length. discriminate.
Qed.

(** C10: [HasEvent] and [IsEmpty] leave the bucket as it is; [PutEvent]
    removes and replaces nothing, the bucket after it being the bucket
    before it with at most one entry added; and over any sequence of calls
    without a [Clear] the bucket only gains entries: every entry it held is
    still held, as many times, and its size does not decrease. *)
Theorem bucket_grows_between_clears :
  (∀ (b : Bucket) evt source, (call b (CallHasEvent evt source)).2 = b) ∧
  (∀ b : Bucket, (call b CallIsEmpty).2 = b) ∧
  (∀ (b : Bucket) evt source,
      PutEvent b evt source = b ∨ PutEvent b evt source = (evt, source) :: b) ∧
  (∀ (b : Bucket) (cs : list Call),
      forallb (λ c, negb (is_clear c)) cs = true →
      (∃ new, run b cs = new ++ b) ∧ b ⊆+ run b cs
      ∧ length b ≤ length (run b cs)).
Proof.
  split; [done|]. split; [done|]. split.
  - intros b evt source. destruct (HasEvent b evt source) eqn:Hhas.
    + left. by apply PutEvent_matched.
    + right. by apply PutEvent_unmatched.
  - intros b cs Hcs. destruct (run_extends cs b Hcs) as [new Hnew].
    split; [by exists new|]. rewrite Hnew.
    split; [by apply submseteq_inserts_l|]. rewrite length_app. lia.
Qed.

End BucketFacts.

(** ** Properties of the wizard model *)

Section WizardFacts.
Import ImageIOWizardModel.
Context {Image SeriesDescriptor : Type}.
Variable io : Services Image SeriesDescriptor.

#[local] Abbreviation Model := (Model Image SeriesDescriptor).

Lemma IsLoadMode_true (m : Model) : m_Mode m = LOAD → IsLoadMode m = true.
Proof. intros Hm. unfold IsLoadMode. by rewrite bool_decide_eq_true_2. Qed.

Lemma IsLoadMode_SAVE (m : Model) : m_Mode m = SAVE → IsLoadMode m = false.
Proof.
  intros Hm. unfold IsLoadMode. rewrite bool_decide_eq_false_2; [done|].
  by rewrite Hm.
Qed.

Lemma IsSaveMode_negb (m : Model) : IsSaveMode m = negb (IsLoadMode m).
Proof. unfold IsSaveMode, IsLoadMode. by destruct (m_Mode m). Qed.

(** [GuessFileFormat] in full: it always returns, leaves the model as it is
    and calls the guided IO at most once, to sniff the magic number. *)
Lemma GuessFileFormat_cases (m : Model) (fname : string) (fileExists : bool) :
  GuessFileFormat io fname fileExists m =
  if IsLoadMode m && negb (FileExists io fname)
  then (Returns (FORMAT_COUNT io, false), m, [])
  else
    let fileExists' :=
      if IsLoadMode m then FileExists io fname else fileExists in
    match m_Registry m !! fname with
    | Some hinted => (Returns (hinted, fileExists'), m, [])
    | None =>
        (Returns (detected_format io m fname, fileExists'), m,
         if IsLoadMode m then [SniffMagicNumberCalled fname] else [])
    end.
Proof.
  unfold GuessFileFormat, detected_format, bind, get, ret, service.
  rewrite IsSaveMode_negb.
  destruct (IsLoadMode m) eqn:Hmode; simpl.
  - destruct (FileExists io fname) eqn:Hex; simpl; [|done].
    destruct (m_Registry m !! fname); [done|].
    destruct (bool_decide (SniffMagicNumber io fname ≠ _)); simpl; [done|].
    by destruct (bool_decide (MatchExtension io fname ≠ _)).
  - destruct (m_Registry m !! fname); [done|].
    rewrite bool_decide_eq_false_2 by (intros Hne; by apply Hne). simpl.
    by destruct (bool_decide (MatchExtension io fname ≠ _)).
Qed.

(** the service calls of [GuessFileFormat] *)
Lemma GuessFileFormat_calls (m : Model) (fname : string) (fileExists : bool) :
  (GuessFileFormat io fname fileExists m).2 =
  if IsLoadMode m && FileExists io fname
     && bool_decide (m_Registry m !! fname = None)
  then [SniffMagicNumberCalled fname] else [].
Proof.
  rewrite GuessFileFormat_cases.
  destruct (IsLoadMode m); simpl.
  - destruct (FileExists io fname); simpl; [|done].
    by destruct (m_Registry m !! fname).
  - by destruct (m_Registry m !! fname).
Qed.

(** in save mode, and when the file exists, the test on the existence of
    the file lets the call through *)
Lemma gate_open (m : Model) (fname : string) :
  m_Mode m = SAVE ∨ FileExists io fname = true →
  IsLoadMode m && negb (FileExists io fname) = false.
Proof.
  intros [Hsave|Hex].
  - by rewrite (IsLoadMode_SAVE m Hsave).
  - by rewrite Hex, andb_false_r.
Qed.

(** C5: in load mode, for a path that does not exist, [GuessFileFormat]
    returns [FORMAT_COUNT] (format not determined) with [fileExists] false;
    it returns and does not throw, and it leaves the model as it is. *)
Theorem GuessFileFormat_missing_file (m : Model) (fname : string)
    (fileExists : bool) :
  m_Mode m = LOAD →
  FileExists io fname = false →
  GuessFileFormat io fname fileExists m
  = (Returns (FORMAT_COUNT io, false), m, []).
Proof.
  intros Hmode Hex. rewrite GuessFileFormat_cases.
  by rewrite (IsLoadMode_true m Hmode), Hex.
Qed.

(** C6, as amended: in save mode, and in load mode when the file exists, a
    path that has a hint in the registry gets the hinted format, whatever
    its extension and its magic number say, and the guided IO is not
    called; in load mode the test that the file exists comes before the
    hint.  The magic number is sniffed only in load mode, only when the file
    exists, and only when the path has no hint; without a hint the format is
    the sniffed one if there is one, else the one of the extension, else, in
    save mode, the default format for saving, else not determined. *)
Theorem GuessFileFormat_order (m : Model) (fname : string)
    (fileExists : bool) :
  (∀ hinted,
      m_Registry m !! fname = Some hinted →
      m_Mode m = SAVE ∨ FileExists io fname = true →
      ∃ fileExists',
        GuessFileFormat io fname fileExists m
        = (Returns (hinted, fileExists'), m, [])) ∧
  (∀ c,
      c ∈ (GuessFileFormat io fname fileExists m).2 →
      c = SniffMagicNumberCalled fname ∧ m_Mode m = LOAD
      ∧ FileExists io fname = true ∧ m_Registry m !! fname = None) ∧
  (m_Registry m !! fname = None →
   m_Mode m = SAVE ∨ FileExists io fname = true →
   ∃ fileExists',
     (GuessFileFormat io fname fileExists m).1
     = (Returns (detected_format io m fname, fileExists'), m)).
Proof.
  split; [|split].
  - intros hinted Hhint Hgate. rewrite GuessFileFormat_cases.
    rewrite (gate_open m fname Hgate). simpl. rewrite Hhint. by eexists.
  - intros c. rewrite GuessFileFormat_calls.
    destruct (IsLoadMode m) eqn:Hmode; simpl; [|by intros ?%elem_of_nil].
    destruct (FileExists io fname); simpl; [|by intros ?%elem_of_nil].
    case_bool_decide as Hhint; simpl; [|by intros ?%elem_of_nil].
    intros ->%list_elem_of_singleton. repeat split; try done.
    unfold IsLoadMode in Hmode. by apply bool_decide_eq_true in Hmode.
  - intros Hhint Hgate. rewrite GuessFileFormat_cases.
    rewrite (gate_open m fname Hgate). simpl. rewrite Hhint. by eexists.
Qed.


(** [LoadDicomSeries] for an index in the range *)
Lemma LoadDicomSeries_in_range (m : Model) (filename : string) (series : Z) :
  (0 ≤ series < Z.of_nat (length (m_DicomContents m)))%Z →
  ∃ descriptor,
    m_DicomContents m !! Z.to_nat series = Some descriptor ∧
    LoadDicomSeries io filename series m
    = bind active_load_delegate
        (λ delegate,
           bind (service (MaterializeSeriesCalled descriptor)
                         (MaterializeSeries io descriptor))
                (finish_load delegate)) m.
Proof.
  intros [Hlow Hhigh].
  destruct (lookup_lt_is_Some_2 (m_DicomContents m) (Z.to_nat series))
    as [descriptor Hlookup]; [lia|].
  exists descriptor. split; [done|].
  unfold LoadDicomSeries, bind at 1, get.
  rewrite !bool_decide_eq_false_2 by lia. simpl. rewrite Hlookup.
  by destruct (bind _ _ m) as [[[]]].
Qed.

(** the load pipeline does not throw [IndexOutOfRange], and what it calls is
    the materialization of the series *)
Lemma pipeline_outcome (m : Model) (descriptor : SeriesDescriptor) :
  let r := bind active_load_delegate
             (λ delegate,
                bind (service (MaterializeSeriesCalled descriptor)
                              (MaterializeSeries io descriptor))
                     (finish_load delegate)) m in
  r.1.1 ≠ Throws IndexOutOfRange ∧
  (∀ c, c ∈ r.2 → c = MaterializeSeriesCalled descriptor) ∧
  (is_Some (m_LoadDelegate m) → r.2 = [MaterializeSeriesCalled descriptor]).
Proof.
  unfold active_load_delegate, bind, get, service, throw, ret. simpl.
  destruct (m_LoadDelegate m) as [delegate|]; simpl.
  - unfold finish_load, bind, modify, throw.
    destruct (MaterializeSeries io descriptor) as [image warnings|diagnostic];
      simpl.
    + destruct (CheckImageValidity delegate image); simpl;
        (split; [done|]); (split; [|done]);
        by intros c ->%list_elem_of_singleton.
    + split; [done|]. split; [|done]. by intros c ->%list_elem_of_singleton.
  - split; [done|]. split; [by intros c ?%elem_of_nil|]. by intros [? [=]].
Qed.

(** C7: with [series_count] series enumerated, [LoadDicomSeries(path, index)]
    fails with [IndexOutOfRange], the model left as it is and no service
    called, whenever [index < 0] or [index >= series_count]; for
    [0 <= index < series_count] it goes on to materialize the series at that
    index through the guided IO and to the load pipeline, and does not fail
    with [IndexOutOfRange]; the guided IO is called only for an index in the
    range. *)
Theorem LoadDicomSeries_index_range (m : Model) (filename : string)
    (series : Z) :
  let series_count := Z.of_nat (length (m_DicomContents m)) in
  ((series < 0 ∨ series_count ≤ series)%Z →
   LoadDicomSeries io filename series m = (Throws IndexOutOfRange, m, [])) ∧
  ((0 ≤ series < series_count)%Z →
   ∃ descriptor,
     m_DicomContents m !! Z.to_nat series = Some descriptor ∧
     LoadDicomSeries io filename series m
     = bind active_load_delegate
         (λ delegate,
            bind (service (MaterializeSeriesCalled descriptor)
                          (MaterializeSeries io descriptor))
                 (finish_load delegate)) m ∧
     (LoadDicomSeries io filename series m).1.1 ≠ Throws IndexOutOfRange ∧
     (is_Some (m_LoadDelegate m) →
      (LoadDicomSeries io filename series m).2
      = [MaterializeSeriesCalled descriptor])) ∧
  (∀ c,
      c ∈ (LoadDicomSeries io filename series m).2 →
      (0 ≤ series < series_count)%Z).
Proof.
  intros series_count.
  assert ((series < 0 ∨ series_count ≤ series)%Z →
          LoadDicomSeries io filename series m
          = (Throws IndexOutOfRange, m, [])) as Hout.
  { intros Hrange. unfold LoadDicomSeries, bind, get, throw. simpl.
    fold series_count.
    destruct Hrange.
    - by rewrite (bool_decide_eq_true_2 (series < 0)%Z).
    - rewrite (bool_decide_eq_true_2 (series_count ≤ series)%Z) by done.
      by rewrite orb_true_r. }
  split; [exact Hout|]. split.
  - intros Hrange.
    destruct (LoadDicomSeries_in_range m filename series Hrange)
      as (descriptor & Hlookup & ->).
    exists descriptor. destruct (pipeline_outcome m descriptor) as (? & _ & ?).
    done.
  - intros c Hc.
    destruct (decide (series < 0 ∨ series_count ≤ series)%Z) as [Hrange|Hin];
      [|lia].
    rewrite (Hout Hrange) in Hc. by apply elem_of_nil in Hc.
Qed.

End WizardFacts.

(** ** The properties on the events of the wizard and on the session *)

Section Examples.
Import EventBucket ImageIOWizardModel.

(** C1, as stated, fails: a bucket that holds [IRISEvent] from source 7 does
    not answer a query for the derived [RegistrationProgressEvent] from the
    same source, although the stored kind is a generalization of the queried
    one. *)
Lemma HasEvent_as_specified_fails :
  ¬ HasEvent_as_specified [(IRISEvent, 7%N)] RegistrationProgressEvent 7%N.
Proof.
  intros [_ Hback].
  assert (HasEvent [(IRISEvent, 7%N)] RegistrationProgressEvent 7%N = true)
    as Hhas; [|vm_compute in Hhas; discriminate].
  apply Hback. exists (IRISEvent, 7%N).
  split; [apply list_elem_of_here|]. split; [reflexivity | by right].
Qed.

(** the other way round the query is answered *)
Example HasEvent_base_class_query :
  HasEvent [(RegistrationProgressEvent, 7%N)] IRISEvent 7%N = true.
Proof. reflexivity. Qed.

Lemma HasEvent_generalization_after_PutEvent_witness :
  generalizes IRISEvent RegistrationProgressEvent = true ∧
  HasEvent (PutEvent empty RegistrationProgressEvent 7%N) IRISEvent 7%N = true.
Proof.
  split; [reflexivity|].
  apply (HasEvent_generalization_after_PutEvent
           IRISEvent RegistrationProgressEvent 7%N).
  reflexivity.
Defined.

Lemma one_entry_per_pair_invariant_witness :
  one_entry_per_pair (run empty [CallPutEvent IRISEvent 7%N]) ∧
  one_entry_per_pair
    (call (run empty [CallPutEvent IRISEvent 7%N])
          (CallPutEvent RegistrationProgressEvent NULL)).2.
Proof.
  pose proof (@one_entry_per_pair_invariant SNAPEvent _)
    as (_ & Hcall & Hrun & _).
  split; [apply Hrun | apply Hcall, Hrun].
Defined.

Lemma null_source_order_dependent_witness :
  7%N ≠ NULL ∧
  ¬ (PutEvent (PutEvent empty IRISEvent NULL) IRISEvent 7%N
     ≡ₚ PutEvent (PutEvent empty IRISEvent 7%N) IRISEvent NULL).
Proof.
  split; [discriminate|].
  apply (null_source_order_dependent IRISEvent 7%N). discriminate.
Defined.

Lemma bucket_grows_between_clears_witness :
  length [(IRISEvent, 7%N)]
  ≤ length (run [(IRISEvent, 7%N)]
              [CallPutEvent RegistrationProgressEvent 9%N; CallIsEmpty]).
Proof.
  apply (proj2 (proj2 (proj2 (@bucket_grows_between_clears SNAPEvent _)))).
  reflexivity.
Defined.

Lemma GuessFileFormat_missing_file_witness :
  m_Mode Session.initialized = LOAD ∧
  FileExists Session.io "gone.nii" = false ∧
  GuessFileFormat Session.io "gone.nii" true Session.initialized
  = (Returns (3, false), Session.initialized, []).
Proof.
  split; [reflexivity|]. split; [reflexivity|].
  apply (GuessFileFormat_missing_file Session.io Session.initialized
           "gone.nii" true); reflexivity.
Defined.

(** C6, as stated, fails: "gone.nii" has the hint DICOM in the registry, the
    file does not exist, and in load mode the format is not determined. *)
Lemma hinted_format_returned_fails :
  ¬ hinted_format_returned Session.io Session.initialized "gone.nii" false.
Proof.
  intros Hclaim. destruct (Hclaim 1) as [fileExists' Hguess]; [reflexivity|].
  vm_compute in Hguess. discriminate.
Qed.

Lemma GuessFileFormat_order_witness :
  m_Registry Session.saving !! "out.mha" = Some 0 ∧
  ∃ fileExists',
    GuessFileFormat Session.io "out.mha" true Session.saving
    = (Returns (0, fileExists'), Session.saving, []).
Proof.
  split; [reflexivity|].
  apply (proj1 (GuessFileFormat_order Session.io Session.saving
                  "out.mha" true)); [reflexivity | left; reflexivity].
Defined.

Lemma LoadDicomSeries_index_range_witness :
  length (m_DicomContents Session.browsed) = 3 ∧
  LoadDicomSeries Session.io "study" 3 Session.browsed
  = (Throws IndexOutOfRange, Session.browsed, []).
Proof.
  split; [reflexivity|].
  apply (proj1 (LoadDicomSeries_index_range Session.io Session.browsed
                  "study" 3)).
  right. vm_compute. discriminate.
Defined.

(** the series at index 1 is loaded, the one before index 0 is not there *)
Example LoadDicomSeries_second_series :
  (LoadDicomSeries Session.io "study" 1 Session.browsed).1.1 = Returns () ∧
  m_LoadedImage (LoadDicomSeries Session.io "study" 1 Session.browsed).1.2
  = Some "series 1" ∧
  (LoadDicomSeries Session.io "study" (-1) Session.browsed).1.1
  = Throws IndexOutOfRange.
Proof. repeat split. Qed.

End Examples.

(** ** More properties of the event bucket *)

Section BucketCalls.
Import EventBucket.
Context {EventClass : Type} `{EventHierarchy EventClass}.

#[local] Abbreviation Bucket := (@Bucket EventClass).
#[local] Abbreviation Call := (@Call EventClass).
#[local] Ltac as_list := unfold EventBucket.Bucket, BucketEntry in *.

Lemma HasEvent_cons (entry : BucketEntry) (b : Bucket) (evt : EventClass)
    (source : ObjectPtr) :
  HasEvent (entry :: b) evt source
  = entry_matches entry evt source || HasEvent b evt source.
Proof.
  cbn [HasEvent]. unfold entry_matches.
  by destruct (CheckEvent evt entry.1 && _).
Qed.

Lemma entry_matches_true (entry : BucketEntry) (evt : EventClass)
    (source : ObjectPtr) :
  entry_matches entry evt source = true ↔
  CheckEvent evt entry.1 = true ∧ source_condition source entry.2.
Proof. apply entry_test_true. Qed.

(** two buckets that hold the same entries answer alike *)
Lemma HasEvent_same_entries (b b' : Bucket) (evt : EventClass)
    (source : ObjectPtr) :
  (∀ entry, entry ∈ b → entry ∈ b') →
  HasEvent b evt source = true → HasEvent b' evt source = true.
Proof.
  intros Hsub Hhas.
  destruct (HasEvent_finds b evt source Hhas) as (entry & Hin & Hkind & Hsrc).
  apply (HasEvent_found b' evt source entry); auto.
Qed.

Lemma HasEvent_Permutation (b b' : Bucket) (evt : EventClass)
    (source : ObjectPtr) :
  b ≡ₚ b' → HasEvent b evt source = HasEvent b' evt source.
Proof.
  intros Hperm.
  destruct (HasEvent b evt source) eqn:Hb, (HasEvent b' evt source) eqn:Hb';
    try done.
  - rewrite <- Hb'. symmetry.
    apply (HasEvent_same_entries b b'); [|done].
    intros entry. by rewrite Hperm.
  - rewrite <- Hb.
    apply (HasEvent_same_entries b' b); [|done].
    intros entry. by rewrite Hperm.
Qed.

Lemma PutEvent_Permutation (b b' : Bucket) (evt : EventClass)
    (source : ObjectPtr) :
  b ≡ₚ b' → PutEvent b evt source ≡ₚ PutEvent b' evt source.
Proof.
  intros Hperm. unfold PutEvent.
  rewrite (HasEvent_Permutation b b' evt source Hperm).
  destruct (HasEvent b' evt source); simpl; [done|].
  as_list. by rewrite Hperm.
Qed.

(** the derivation of classes composes when the base classes are closed *)
Lemma is_a_trans (a b c : EventClass) :
  ancestors_closed → is_a a b = true → is_a b c = true → is_a a c = true.
Proof.
  intros Hclosed. unfold is_a.
  rewrite !orb_true_iff, !bool_decide_eq_true.
  intros [->|Hab] [->|Hbc]; eauto.
Qed.

Lemma HasEvent_kept_by_call (b : Bucket) (c : Call) (evt : EventClass)
    (source : ObjectPtr) :
  is_clear c = false →
  HasEvent b evt source = true → HasEvent (call b c).2 evt source = true.
Proof.
  intros Hc Hhas. destruct c as [|e s| |e s]; simpl; try done.
  destruct (HasEvent b e s) eqn:Hput.
  - by rewrite PutEvent_matched.
  - rewrite PutEvent_unmatched by done.
    rewrite HasEvent_cons, Hhas. apply orb_true_r.
Qed.

Lemma HasEvent_kept_by_run (cs : list Call) (b : Bucket) (evt : EventClass)
    (source : ObjectPtr) :
  forallb (λ c, negb (is_clear c)) cs = true →
  HasEvent b evt source = true → HasEvent (run b cs) evt source = true.
Proof.
  revert b. induction cs as [|c cs IH]; intros b Hcs Hhas; [done|].
  simpl in Hcs. apply andb_true_iff in Hcs as [Hc Hcs].
  apply negb_true_iff in Hc.
  apply (IH _ Hcs), HasEvent_kept_by_call; done.
Qed.

Lemma run_app (cs1 cs2 : list Call) (b : Bucket) :
  run b (cs1 ++ cs2) = run (run b cs1) cs2.
Proof. unfold run. apply fold_left_app. Qed.

(** a pair that matches a pair the bucket answers for is answered for *)
Lemma HasEvent_through_put (b : Bucket) (put evt : EventClass)
    (put_source source : ObjectPtr) :
  ancestors_closed →
  HasEvent b put put_source = true →
  entry_matches (put, put_source) evt source = true →
  HasEvent b evt source = true.
Proof.
  intros Hclosed Hhas Hmatch.
  destruct (HasEvent_finds b put put_source Hhas)
    as (entry & Hin & Hkind & Hsrc).
  apply entry_matches_true in Hmatch as [Hkind' Hsrc']. simpl in *.
  apply (HasEvent_found b evt source entry Hin).
  - unfold CheckEvent in *. by apply (is_a_trans _ put).
  - unfold source_condition in *. destruct Hsrc' as [-> | ->]; [by left|].
    destruct Hsrc as [-> | ->]; [by left | by right].
Qed.

Lemma record_puts_answers (cs : list Call) (b puts : Bucket) :
  ancestors_closed →
  (∀ evt source, HasEvent b evt source = HasEvent puts evt source) →
  ∀ evt source,
    HasEvent (run b cs) evt source
    = HasEvent (record_puts puts cs) evt source.
Proof.
  intros Hclosed. revert b puts.
  induction cs as [|c cs IH]; intros b puts Hsame; [done|].
  apply IH. intros evt source.
  destruct c as [|e s| |e s]; cbn [call snd]; try done.
  rewrite HasEvent_cons, <- Hsame.
  destruct (HasEvent b e s) eqn:Hput.
  - rewrite PutEvent_matched by done.
    destruct (entry_matches (e, s) evt source) eqn:Hmatch; [|done].
    by apply (HasEvent_through_put b e evt s source).
  - rewrite PutEvent_unmatched by done. apply HasEvent_cons.
Qed.

Lemma record_puts_holds (cs : list Call) (b puts : Bucket) :
  b ⊆+ puts → run b cs ⊆+ record_puts puts cs.
Proof.
  revert b puts. induction cs as [|c cs IH]; intros b puts Hsub; [done|].
  apply IH. destruct c as [|e s| |e s]; cbn [call snd]; try done.
  destruct (HasEvent b e s) eqn:Hput.
  - rewrite PutEvent_matched by done. by apply submseteq_cons.
  - rewrite PutEvent_unmatched by done. by apply submseteq_skip.
Qed.

(** X1: the answers of the bucket do not depend on the order in which the
    container keeps its entries: two buckets that hold the same entries, in
    whatever order, give the same [HasEvent] and the same [IsEmpty], and
    hold the same entries again after the same [PutEvent]. *)
Theorem bucket_order_irrelevant (b b' : Bucket) (evt : EventClass)
    (source : ObjectPtr) :
  b ≡ₚ b' →
  HasEvent b evt source = HasEvent b' evt source ∧
  IsEmpty b = IsEmpty b' ∧
  PutEvent b evt source ≡ₚ PutEvent b' evt source.
Proof.
  intros Hperm. split; [by apply HasEvent_Permutation|]. split.
  - unfold IsEmpty. as_list. by rewrite (Permutation_length Hperm).
  - by apply PutEvent_Permutation.
Qed.

(** X2: a query with the null source succeeds whenever the same query with
    some source succeeds; and when it succeeds, the query succeeds with the
    source of an entry of the bucket. *)
Theorem null_source_query_weakest (b : Bucket) (evt : EventClass) :
  (∀ source, HasEvent b evt source = true → HasEvent b evt NULL = true) ∧
  (HasEvent b evt NULL = true →
   ∃ entry, entry ∈ b ∧ HasEvent b evt entry.2 = true).
Proof.
  split.
  - intros source Hhas.
    destruct (HasEvent_finds b evt source Hhas) as (entry & Hin & Hkind & _).
    apply (HasEvent_found b evt NULL entry Hin Hkind). by left.
  - intros Hhas.
    destruct (HasEvent_finds b evt NULL Hhas) as (entry & Hin & Hkind & _).
    exists entry. split; [done|].
    apply (HasEvent_found b evt entry.2 entry Hin Hkind). by right.
Qed.

(** X3: in a hierarchy whose base classes are closed, a query for a base
    class succeeds whenever the query for a class derived from it, with the
    same source, succeeds. *)
Theorem base_class_query_weaker (b : Bucket) (base derived : EventClass)
    (source : ObjectPtr) :
  ancestors_closed →
  generalizes base derived = true →
  HasEvent b derived source = true → HasEvent b base source = true.
Proof.
  intros Hclosed Hgen Hhas.
  destruct (HasEvent_finds b derived source Hhas)
    as (entry & Hin & Hkind & Hsrc).
  apply (HasEvent_found b base source entry Hin); [|done].
  unfold CheckEvent, generalizes in *. by apply (is_a_trans _ derived).
Qed.

(** X4: what the bucket answers for, it answers for until [Clear]: over
    calls without a [Clear], a [HasEvent] that was true stays true, and the
    pair of a [PutEvent] is answered for after every later call. *)
Theorem events_kept_until_Clear (b : Bucket) (evt : EventClass)
    (source : ObjectPtr) (before after : list Call) :
  forallb (λ c, negb (is_clear c)) after = true →
  (HasEvent b evt source = true →
   HasEvent (run b after) evt source = true) ∧
  HasEvent (run b (before ++ CallPutEvent evt source :: after)) evt source
  = true.
Proof.
  intros Hafter. split; [by apply HasEvent_kept_by_run|].
  rewrite run_app. change (CallPutEvent evt source :: after)
    with ([CallPutEvent evt source] ++ after).
  rewrite run_app. apply HasEvent_kept_by_run; [done|].
  apply HasEvent_after_PutEvent.
Qed.

(** X5: leaving out the pairs that are matched loses no answer: in a
    hierarchy whose base classes are closed, after any sequence of calls on
    a new bucket, [HasEvent] answers as it would if the bucket held every
    pair given to [PutEvent] since the last [Clear]. *)
Theorem HasEvent_as_if_all_stored (cs : list Call) (evt : EventClass)
    (source : ObjectPtr) :
  ancestors_closed →
  HasEvent (run empty cs) evt source
  = HasEvent (puts_since_clear cs) evt source.
Proof.
  intros Hclosed. by apply record_puts_answers.
Qed.

(** X6: after any sequence of calls on a new bucket, the bucket holds only
    pairs given to [PutEvent] since the last [Clear], each at most as many
    times as it was given, so that it holds at most as many entries as
    there were such calls. *)
Theorem bucket_holds_only_puts (cs : list Call) :
  run empty cs ⊆+ puts_since_clear cs ∧
  (∀ entry, entry ∈ run empty cs → entry ∈ puts_since_clear cs) ∧
  length (run empty cs) ≤ length (puts_since_clear cs).
Proof.
  assert (run empty cs ⊆+ puts_since_clear cs) as Hsub
    by (by apply record_puts_holds).
  split; [done|]. split.
  - intros entry Hin. by apply (elem_of_submseteq (run empty cs)).
  - by apply submseteq_length.
Qed.

(** X7: the contents depend on the order of the kinds.  For a class
    [derived] that is derived from [base] and is not [base]: after
    [PutEvent(derived, s)] on a new bucket, [PutEvent(base, s)] stores
    nothing, and the bucket holds no entry of kind [base]; after
    [PutEvent(base, s)], [PutEvent(derived, s)] adds a second entry. *)
Theorem kind_order_dependent (base derived : EventClass) (s : ObjectPtr) :
  is_a derived base = true → is_a base derived = false →
  PutEvent (PutEvent empty derived s) base s = [(derived, s)] ∧
  ((base, s) ∉ PutEvent (PutEvent empty derived s) base s) ∧
  length (PutEvent (PutEvent empty base s) derived s) = 2.
Proof.
  intros Hderived Hbase. as_list.
  assert (N.eqb s s = true) as Hs by apply N.eqb_refl.
  assert (HasEvent [(derived, s)] base s = true) as Habsorbed.
  { cbn [HasEvent fst snd]. unfold CheckEvent.
    by rewrite Hderived, Hs, orb_true_r. }
  assert (HasEvent [(base, s)] derived s = false) as Hadded.
  { cbn [HasEvent fst snd]. unfold CheckEvent. by rewrite Hbase. }
  unfold empty. rewrite !(PutEvent_unmatched []) by done. as_list.
  rewrite (PutEvent_matched _ _ _ Habsorbed).
  rewrite (PutEvent_unmatched _ _ _ Hadded).
  split; [done|]. split; [|done].
  intros Heq%list_elem_of_singleton. injection Heq as ->.
  rewrite is_a_refl in Hbase. discriminate.
Qed.

(** X8: two [PutEvent] calls can be exchanged when neither pair matches the
    other: the bucket holds the same entries after them in either order. *)
Theorem independent_puts_commute (b : Bucket) (evt1 evt2 : EventClass)
    (source1 source2 : ObjectPtr) :
  entry_matches (evt1, source1) evt2 source2 = false →
  entry_matches (evt2, source2) evt1 source1 = false →
  PutEvent (PutEvent b evt1 source1) evt2 source2
  ≡ₚ PutEvent (PutEvent b evt2 source2) evt1 source1.
Proof.
  intros H12 H21. as_list.
  destruct (HasEvent b evt1 source1) eqn:H1, (HasEvent b evt2 source2) eqn:H2.
  - by rewrite !PutEvent_matched by (by rewrite ?PutEvent_matched).
  - rewrite (PutEvent_matched b evt1) by done.
    rewrite (PutEvent_unmatched b evt2) by done.
    rewrite PutEvent_matched; [done|].
    rewrite HasEvent_cons, H1. apply orb_true_r.
  - rewrite (PutEvent_matched b evt2) by done.
    rewrite (PutEvent_unmatched b evt1) by done.
    rewrite PutEvent_matched; [done|].
    rewrite HasEvent_cons, H2. apply orb_true_r.
  - rewrite (PutEvent_unmatched b evt1), (PutEvent_unmatched b evt2) by done.
    rewrite !PutEvent_unmatched by (by rewrite HasEvent_cons, ?H12, ?H21).
    apply Permutation_swap.
Qed.

End BucketCalls.

Section PrintingFacts.
Import EventBucket.
Context {EventClass : Type}.
Variable GetEventName : EventClass → string.
Variable print_pointer : ObjectPtr → string.

Lemma append_String (a : Ascii.ascii) (s t : string) :
  String a s +:+ t = String a (s +:+ t).
Proof. reflexivity. Qed.

Lemma append_assoc (s t u : string) : (s +:+ t) +:+ u = s +:+ (t +:+ u).
Proof.
  induction s as [|a s IH]; [done|].
  by rewrite !append_String, IH.
Qed.

Lemma append_empty_r (s : string) : s +:+ "" = s.
Proof.
  induction s as [|a s IH]; [done|]. by rewrite append_String, IH.
Qed.

Lemma print_entries_join (entries : list (@BucketEntry EventClass))
    (sink : string) :
  print_entries GetEventName print_pointer sink entries
  = sink +:+ String.concat ", "
               (entry_text GetEventName print_pointer <$> entries).
Proof.
  revert sink. induction entries as [|entry rest IH]; intros sink.
  - cbn [print_entries fmap list_fmap String.concat].
    by rewrite append_empty_r.
  - cbn [print_entries]. rewrite IH.
    fold (entry_text GetEventName print_pointer entry).
    destruct rest as [|next rest];
      cbn [fmap list_fmap String.concat].
    + by rewrite append_empty_r.
    + by rewrite !append_assoc.
Qed.

(** X9: [operator<<] adds to the stream the text [EventBucket[], between
    the brackets the texts of the entries in the order of the iteration,
    with the separator between two entries only, and nothing else; for an
    empty bucket it adds [EventBucket[]]. *)
Theorem operator_shl_join (sink : string)
    (entries : list (@BucketEntry EventClass)) :
  operator_shl GetEventName print_pointer sink entries
  = sink +:+ "EventBucket[" +:+
    String.concat ", " (entry_text GetEventName print_pointer <$> entries)
    +:+ "]" ∧
  operator_shl GetEventName print_pointer sink [] = sink +:+ "EventBucket[]".
Proof.
  unfold operator_shl. rewrite !print_entries_join. split.
  - by rewrite !append_assoc.
  - cbn [fmap list_fmap String.concat]. by rewrite !append_assoc.
Qed.

End PrintingFacts.

(** ** The bucket and the objects it owns *)

Section MemoryFacts.
Import EventBucketMemory.
Context {EventClass : Type} `{EventHierarchy EventClass}.

#[local] Abbreviation State := (@State EventClass).

(** an entry with the class of its object in place of the address *)
#[local] Abbreviation with_class h :=
  (λ entry : N * ObjectPtr,
     stored ← (h : gmap N EventClass) !! entry.1; Some (stored, entry.2)).

Lemma search_entries (h : gmap N EventClass) (listed : list (N * ObjectPtr))
    (evt : EventClass) (source : ObjectPtr) :
  (∀ entry, entry ∈ listed → is_Some (h !! entry.1)) →
  search h listed evt source
  = Some (EventBucket.HasEvent (omap (with_class h) listed) evt source).
Proof.
  induction listed as [|entry rest IH]; intros Hlive; [done|].
  destruct (Hlive entry) as [stored Hstored]; [apply list_elem_of_here|].
  cbn [search omap list_omap]. rewrite Hstored.
  cbn [mbind option_bind EventBucket.HasEvent fst snd].
  destruct (EventBucket.CheckEvent evt stored && _); [done|].
  apply IH. intros e He. by apply Hlive, list_elem_of_further.
Qed.

Lemma length_entries (h : gmap N EventClass) (listed : list (N * ObjectPtr)) :
  (∀ entry, entry ∈ listed → is_Some (h !! entry.1)) →
  length (omap (with_class h) listed) = length listed.
Proof.
  induction listed as [|entry rest IH]; intros Hlive; [done|].
  destruct (Hlive entry) as [stored Hstored]; [apply list_elem_of_here|].
  cbn [omap list_omap]. rewrite Hstored. cbn [mbind option_bind length].
  f_equal. apply IH. intros e He. by apply Hlive, list_elem_of_further.
Qed.

Lemma listed_live (st : State) :
  owns_its_objects st →
  ∀ entry, entry ∈ elements (m_Bucket st) → is_Some (heap st !! entry.1).
Proof.
  intros (Hlive & _ & _) [p source] Hin. apply elem_of_elements in Hin.
  by apply (Hlive p source).
Qed.

Lemma HasEvent_entries (st : State) (evt : EventClass) (source : ObjectPtr) :
  owns_its_objects st →
  HasEvent st evt source
  = Some (EventBucket.HasEvent (entries st) evt source).
Proof. intros Howns. by apply search_entries, listed_live. Qed.

Lemma new_address_not_stored (st : State) (p : N) (source : ObjectPtr) :
  owns_its_objects st → heap st !! p = None → (p, source) ∉ m_Bucket st.
Proof.
  intros (Hlive & _ & _) Hnew Hin.
  destruct (Hlive p source Hin) as [stored Hstored]. congruence.
Qed.

Lemma entries_insert (st : State) (evt : EventClass) (source : ObjectPtr)
    (p : N) :
  owns_its_objects st → heap st !! p = None →
  entries {| heap := <[p := evt]> (heap st);
             m_Bucket := {[ (p, source) ]} ∪ m_Bucket st |}
  ≡ₚ (evt, source) :: entries st.
Proof.
  intros Howns Hnew. unfold entries. cbn [heap m_Bucket].
  rewrite elements_union_singleton
    by (by apply new_address_not_stored).
  cbn [omap list_omap fst snd]. rewrite lookup_insert_eq.
  cbn [mbind option_bind]. apply Permutation_skip.
  assert (omap (with_class (<[p := evt]> (heap st))) (elements (m_Bucket st))
          = omap (with_class (heap st)) (elements (m_Bucket st))) as ->;
    [|done].
  apply list_omap_ext, Forall2_same_length_lookup_2; [done|].
  intros i entry entry' Hi Hi'. assert (entry' = entry) as -> by congruence.
  rewrite lookup_insert_ne; [done|]. intros Heq.
  destruct (listed_live st Howns entry) as [stored Hstored];
    [by eapply list_elem_of_lookup_2|]. congruence.
Qed.

Lemma owns_insert (st : State) (evt : EventClass) (source : ObjectPtr)
    (p : N) :
  owns_its_objects st → heap st !! p = None →
  owns_its_objects {| heap := <[p := evt]> (heap st);
                      m_Bucket := {[ (p, source) ]} ∪ m_Bucket st |}.
Proof.
  intros (Hlive & Hheld & Hone) Hnew. unfold owns_its_objects.
  cbn [heap m_Bucket]. split; [|split].
  - intros q s [Hq|Hq]%elem_of_union.
    + apply elem_of_singleton in Hq as [= -> ->].
      rewrite lookup_insert_eq. by eexists.
    + destruct (decide (p = q)) as [->|Hne].
      * rewrite lookup_insert_eq. by eexists.
      * rewrite lookup_insert_ne by done. by apply (Hlive q s).
  - intros q Hq. destruct (decide (p = q)) as [->|Hne].
    + exists source. apply elem_of_union_l. by apply elem_of_singleton.
    + rewrite lookup_insert_ne in Hq by done.
      destruct (Hheld q Hq) as [s Hs]. exists s. by apply elem_of_union_r.
  - intros q s s' [Hs|Hs]%elem_of_union [Hs'|Hs']%elem_of_union.
    + apply elem_of_singleton in Hs as [= -> ->].
      by apply elem_of_singleton in Hs' as [= ->].
    + apply elem_of_singleton in Hs as [= -> ->].
      destruct (Hlive p s' Hs') as [stored Hstored]. congruence.
    + apply elem_of_singleton in Hs' as [= -> ->].
      destruct (Hlive p s Hs) as [stored Hstored]. congruence.
    + by apply (Hone q).
Qed.

Lemma owns_new_bucket : owns_its_objects (@new_bucket EventClass).
Proof.
  unfold owns_its_objects, new_bucket. cbn [heap m_Bucket].
  split; [|split].
  - intros p source Hin. by apply not_elem_of_empty in Hin.
  - intros p [stored Hstored]. by rewrite lookup_empty in Hstored.
  - intros p source source' Hin. by apply not_elem_of_empty in Hin.
Qed.

Lemma PutEvent_cases (st : State) (evt : EventClass) (source : ObjectPtr)
    (p : N) :
  owns_its_objects st →
  PutEvent st evt source p
  = Some (if EventBucket.HasEvent (entries st) evt source
          then st
          else {| heap := <[p := evt]> (heap st);
                  m_Bucket := {[ (p, source) ]} ∪ m_Bucket st |}).
Proof.
  intros Howns. unfold PutEvent. rewrite HasEvent_entries by done.
  cbn [mbind option_bind].
  by destruct (EventBucket.HasEvent (entries st) evt source).
Qed.

(** deleting objects that are there, each once, is defined and removes
    them and no other *)
Lemma delete_objects_defined (addresses : list N) (h : gmap N EventClass) :
  NoDup addresses →
  (∀ p, p ∈ addresses → is_Some (h !! p)) →
  ∃ h', delete_objects addresses h = Some h' ∧
        ∀ q, h' !! q = if decide (q ∈ addresses) then None else h !! q.
Proof.
  revert h. induction addresses as [|p rest IH]; intros h Hnodup Hlive.
  - exists h. split; [done|]. intros q. rewrite decide_False; [done|].
    apply not_elem_of_nil.
  - apply NoDup_cons in Hnodup as [Hp Hnodup].
    destruct (Hlive p) as [stored Hstored]; [apply list_elem_of_here|].
    destruct (IH (delete p h) Hnodup) as (h' & Hdel & Hlookup).
    { intros q Hq. rewrite lookup_delete_ne by (intros ->; done).
      by apply Hlive, list_elem_of_further. }
    exists h'. split; [cbn [delete_objects]; by rewrite Hstored|].
    intros q. rewrite Hlookup.
    destruct (decide (q ∈ rest)) as [Hq|Hq].
    + rewrite decide_True; [done|]. by apply list_elem_of_further.
    + destruct (decide (q = p)) as [->|Hne].
      * rewrite decide_True by apply list_elem_of_here.
        apply lookup_delete_eq.
      * rewrite decide_False by (rewrite elem_of_cons; tauto).
        by rewrite lookup_delete_ne.
Qed.

Lemma Clear_defined (st : State) :
  owns_its_objects st → Clear st = Some new_bucket.
Proof.
  intros Howns. pose proof Howns as (Hlive & Hheld & Hone).
  destruct (delete_objects_defined (elements (m_Bucket st)).*1 (heap st))
    as (h' & Hdel & Hlookup).
  - apply NoDup_fmap_2_strong; [|apply NoDup_elements].
    intros [p s] [q s'] Hp Hq Heq. cbn in Heq. subst q.
    apply elem_of_elements in Hp, Hq. by rewrite (Hone p s s').
  - intros p (entry & -> & Hin)%list_elem_of_fmap.
    by apply listed_live.
  - unfold Clear. rewrite Hdel. cbn [mbind option_bind].
    unfold new_bucket. do 2 f_equal. apply map_eq. intros q.
    rewrite Hlookup, lookup_empty. case_decide as Hq; [done|].
    destruct (heap st !! q) as [stored|] eqn:Hstored; [|done].
    destruct (Hheld q) as [s Hs]; [by eexists|]. exfalso. apply Hq.
    apply list_elem_of_fmap. exists (q, s). split; [done|].
    by apply elem_of_elements.
Qed.

(** X10: the bucket owns its objects: a new bucket does; it still does
    after a [PutEvent] for which [new] gives an address that is not in use,
    and after a [Clear]. *)
Theorem bucket_owns_its_objects :
  owns_its_objects (@new_bucket EventClass) ∧
  (∀ (st st' : State) evt source p,
      owns_its_objects st → heap st !! p = None →
      PutEvent st evt source p = Some st' → owns_its_objects st') ∧
  (∀ st st' : State,
      owns_its_objects st → Clear st = Some st' → owns_its_objects st').
Proof.
  split; [apply owns_new_bucket|]. split.
  - intros st st' evt source p Howns Hnew.
    rewrite PutEvent_cases by done. intros [= <-].
    destruct (EventBucket.HasEvent (entries st) evt source); [done|].
    by apply owns_insert.
  - intros st st' Howns. rewrite Clear_defined by done. intros [= <-].
    apply owns_new_bucket.
Qed.

(** X11: in a bucket that owns its objects, [HasEvent] reads only through
    addresses of objects that are not deleted, and it answers as the list of
    the entries does, each with the class of its object; [IsEmpty] and
    the size agree with that list. *)
Theorem HasEvent_reads_owned_objects (st : State) (evt : EventClass)
    (source : ObjectPtr) :
  owns_its_objects st →
  HasEvent st evt source
  = Some (EventBucket.HasEvent (entries st) evt source) ∧
  size (m_Bucket st) = length (entries st) ∧
  IsEmpty st = EventBucket.IsEmpty (entries st).
Proof.
  intros Howns. split; [by apply HasEvent_entries|].
  assert (size (m_Bucket st) = length (entries st)) as Hsize.
  { unfold entries. by rewrite length_entries by (by apply listed_live). }
  split; [done|]. unfold IsEmpty, EventBucket.IsEmpty. by rewrite Hsize.
Qed.


(** X13: in a bucket that owns its objects, [Clear] deletes the object of
    every entry, each once and none that is already deleted, and leaves the
    bucket as a new one: no entry, and no object left. *)
Theorem Clear_deletes_every_object (st : State) :
  owns_its_objects st →
  Clear st = Some new_bucket ∧
  (∃ h, delete_objects (elements (m_Bucket st)).*1 (heap st) = Some h
        ∧ h = ∅).
Proof.
  intros Howns. pose proof (Clear_defined st Howns) as Hclear.
  split; [done|]. unfold Clear in Hclear.
  destruct (delete_objects _ (heap st)) as [h|]; [|done].
  exists h. split; [done|]. cbn in Hclear. by injection Hclear.
Qed.


Lemma entries_new_bucket : entries (@new_bucket EventClass) = [].
Proof. unfold entries, new_bucket. cbn [m_Bucket]. by rewrite elements_empty. Qed.

Lemma call_refines (st : State) (b : list (EventClass * ObjectPtr))
    (c : @EventBucket.Call EventClass) (p : N) :
  owns_its_objects st → entries st ≡ₚ b →
  (∀ evt source, c = EventBucket.CallPutEvent evt source →
                 heap st !! p = None) →
  ∃ st', call st c p = Some st' ∧ owns_its_objects st' ∧
         entries st' ≡ₚ (EventBucket.call b c).2.
Proof.
  intros Howns Hsame Hnew. destruct c as [|evt source| |evt source];
    cbn [call EventBucket.call snd].
  - exists new_bucket. split; [by apply Clear_defined|].
    split; [apply owns_new_bucket|]. by rewrite entries_new_bucket.
  - exists st. rewrite HasEvent_entries by done. done.
  - by exists st.
  - specialize (Hnew evt source eq_refl).
    eexists. split; [by apply PutEvent_cases|].
    unfold EventBucket.PutEvent, EventBucket.MakeObject.
    rewrite <- (HasEvent_Permutation _ _ evt source Hsame).
    destruct (EventBucket.HasEvent (entries st) evt source); cbn [negb].
    + done.
    + split; [by apply owns_insert|].
      rewrite entries_insert by done. by apply Permutation_skip.
Qed.

Lemma run_refines (cs : list (@EventBucket.Call EventClass * N))
    (st : State) (b : list (EventClass * ObjectPtr)) :
  owns_its_objects st → entries st ≡ₚ b → addresses_new st cs = true →
  ∃ st', run st cs = Some st' ∧ owns_its_objects st' ∧
         entries st' ≡ₚ EventBucket.run b cs.*1.
Proof.
  revert st b. induction cs as [|[c p] cs IH]; intros st b Howns Hsame Hnew.
  - by exists st.
  - cbn [addresses_new] in Hnew. apply andb_true_iff in Hnew as [Hp Hrest].
    destruct (call_refines st b c p Howns Hsame)
      as (st1 & Hcall & Howns1 & Hsame1).
    { intros evt source ->. by apply bool_decide_eq_true in Hp. }
    rewrite Hcall in Hrest.
    destruct (IH st1 _ Howns1 Hsame1 Hrest) as (st' & Hrun & Howns' & Hsame').
    exists st'. cbn [run]. rewrite Hcall. done.
Qed.

(** X14: every sequence of calls on a new bucket in which [new] gives
    addresses that are not in use is defined: nothing is read through the
    address of a deleted object and nothing is deleted twice.  The bucket
    still owns its objects after it, it holds the entries that the list of
    entries holds after the same calls, and [HasEvent] answers as that list
    does. *)
Theorem calls_defined_and_as_list
    (cs : list (@EventBucket.Call EventClass * N)) :
  addresses_new new_bucket cs = true →
  ∃ st',
    run new_bucket cs = Some st' ∧
    owns_its_objects st' ∧
    entries st' ≡ₚ EventBucket.run EventBucket.empty cs.*1 ∧
    ∀ evt source,
      HasEvent st' evt source
      = Some (EventBucket.HasEvent
                (EventBucket.run EventBucket.empty cs.*1) evt source).
Proof.
  intros Hnew.
  destruct (run_refines cs new_bucket EventBucket.empty)
    as (st' & Hrun & Howns & Hsame); [apply owns_new_bucket| |done|].
  { by rewrite entries_new_bucket. }
  exists st'. split; [done|]. split; [done|]. split; [done|].
  intros evt source. rewrite HasEvent_entries by done.
  f_equal. by apply HasEvent_Permutation.
Qed.

End MemoryFacts.

(** ** The further properties on the events of the wizard *)

Section MoreExamples.
Import EventBucket.

Lemma SNAPEvent_ancestors_closed : @ancestors_closed SNAPEvent _.
Proof.
  intros c p q Hp Hq. destruct c; cbn in Hp.
  - by apply elem_of_nil in Hp.
  - apply list_elem_of_singleton in Hp as ->. cbn in Hq.
    by apply elem_of_nil in Hq.
Qed.

Lemma one_event_owned :
  EventBucketMemory.owns_its_objects BucketSession.one_event.
Proof.
  exact (owns_insert EventBucketMemory.new_bucket RegistrationProgressEvent
           7%N 16%N owns_new_bucket eq_refl).
Qed.

Lemma bucket_order_irrelevant_witness :
  HasEvent [(IRISEvent, 7%N); (RegistrationProgressEvent, 9%N)] IRISEvent 9%N
  = HasEvent [(RegistrationProgressEvent, 9%N); (IRISEvent, 7%N)] IRISEvent 9%N.
Proof.
  apply (bucket_order_irrelevant
           [(IRISEvent, 7%N); (RegistrationProgressEvent, 9%N)]
           [(RegistrationProgressEvent, 9%N); (IRISEvent, 7%N)]).
  apply Permutation_swap.
Defined.

Lemma null_source_query_weakest_witness :
  HasEvent [(RegistrationProgressEvent, 7%N)] IRISEvent 7%N = true ∧
  HasEvent [(RegistrationProgressEvent, 7%N)] IRISEvent NULL = true.
Proof.
  split; [reflexivity|].
  apply (proj1 (null_source_query_weakest
                  [(RegistrationProgressEvent, 7%N)] IRISEvent) 7%N).
  reflexivity.
Defined.

Lemma base_class_query_weaker_witness :
  generalizes IRISEvent RegistrationProgressEvent = true ∧
  HasEvent [(RegistrationProgressEvent, 7%N)] IRISEvent 7%N = true.
Proof.
  split; [reflexivity|].
  apply (base_class_query_weaker [(RegistrationProgressEvent, 7%N)]
           IRISEvent RegistrationProgressEvent 7%N
           SNAPEvent_ancestors_closed); reflexivity.
Defined.

Lemma events_kept_until_Clear_witness :
  HasEvent
    (run empty
       ([CallClear]
        ++ CallPutEvent RegistrationProgressEvent 7%N
           :: [CallPutEvent IRISEvent 9%N; CallIsEmpty]))
    RegistrationProgressEvent 7%N = true.
Proof.
  apply (events_kept_until_Clear empty RegistrationProgressEvent 7%N
           [CallClear] [CallPutEvent IRISEvent 9%N; CallIsEmpty]).
  reflexivity.
Defined.

Lemma HasEvent_as_if_all_stored_witness :
  HasEvent
    (run empty [CallPutEvent RegistrationProgressEvent 7%N;
                CallPutEvent IRISEvent NULL])
    IRISEvent 7%N
  = HasEvent
      (puts_since_clear [CallPutEvent RegistrationProgressEvent 7%N;
                         CallPutEvent IRISEvent NULL])
      IRISEvent 7%N.
Proof.
  apply (HasEvent_as_if_all_stored
           [CallPutEvent RegistrationProgressEvent 7%N;
            CallPutEvent IRISEvent NULL]
           IRISEvent 7%N SNAPEvent_ancestors_closed).
Defined.

Lemma bucket_holds_only_puts_witness :
  (RegistrationProgressEvent, 7%N)
  ∈ puts_since_clear [CallClear; CallPutEvent RegistrationProgressEvent 7%N].
Proof.
  apply (proj1 (proj2 (bucket_holds_only_puts
                         [CallClear;
                          CallPutEvent RegistrationProgressEvent 7%N]))).
  apply list_elem_of_here.
Defined.

Lemma kind_order_dependent_witness :
  is_a RegistrationProgressEvent IRISEvent = true ∧
  is_a IRISEvent RegistrationProgressEvent = false ∧
  PutEvent (PutEvent empty RegistrationProgressEvent 7%N) IRISEvent 7%N
  = [(RegistrationProgressEvent, 7%N)].
Proof.
  split; [reflexivity|]. split; [reflexivity|].
  apply (kind_order_dependent IRISEvent RegistrationProgressEvent 7%N);
    reflexivity.
Defined.

Lemma independent_puts_commute_witness :
  entry_matches (IRISEvent, 7%N) IRISEvent 9%N = false ∧
  entry_matches (IRISEvent, 9%N) IRISEvent 7%N = false ∧
  PutEvent (PutEvent empty IRISEvent 7%N) IRISEvent 9%N
  ≡ₚ PutEvent (PutEvent empty IRISEvent 9%N) IRISEvent 7%N.
Proof.
  split; [reflexivity|]. split; [reflexivity|].
  apply (independent_puts_commute empty IRISEvent IRISEvent 7%N 9%N);
    reflexivity.
Defined.

(** what is printed for a bucket of two entries, by a stream that writes
    addresses in decimal *)
Example operator_shl_two_entries :
  operator_shl BucketSession.event_name pretty "bucket: "
    [(RegistrationProgressEvent, 7%N); (IRISEvent, NULL)]
  = "bucket: EventBucket[RegistrationProgressEvent(7), IRISEvent(0)]".
Proof. reflexivity. Qed.

Lemma bucket_owns_its_objects_witness :
  EventBucketMemory.owns_its_objects BucketSession.one_event ∧
  EventBucketMemory.heap BucketSession.one_event !! 32%N = None ∧
  EventBucketMemory.owns_its_objects
    {| EventBucketMemory.heap :=
         <[ 32%N := IRISEvent ]>
           (EventBucketMemory.heap BucketSession.one_event);
       EventBucketMemory.m_Bucket :=
         {[ (32%N, 9%N) ]}
         ∪ EventBucketMemory.m_Bucket BucketSession.one_event |}.
Proof.
  split; [apply one_event_owned|]. split; [reflexivity|].
  apply (proj1 (proj2 (@bucket_owns_its_objects SNAPEvent _))
           BucketSession.one_event _ IRISEvent 9%N 32%N).
  - apply one_event_owned.
  - reflexivity.
  - reflexivity.
Defined.

Lemma HasEvent_reads_owned_objects_witness :
  EventBucketMemory.HasEvent BucketSession.one_event IRISEvent NULL
  = Some (HasEvent (EventBucketMemory.entries BucketSession.one_event)
            IRISEvent NULL).
Proof.
  apply (HasEvent_reads_owned_objects BucketSession.one_event IRISEvent NULL).
  apply one_event_owned.
Defined.


Lemma Clear_deletes_every_object_witness :
  EventBucketMemory.Clear BucketSession.one_event
  = Some EventBucketMemory.new_bucket.
Proof.
  apply (Clear_deletes_every_object BucketSession.one_event).
  apply one_event_owned.
Defined.

Lemma calls_defined_and_as_list_witness :
  ∃ st',
    EventBucketMemory.run EventBucketMemory.new_bucket
      [(CallPutEvent RegistrationProgressEvent 7%N, 16%N);
       (CallHasEvent IRISEvent NULL, 24%N);
       (CallClear, 24%N);
       (CallPutEvent IRISEvent 7%N, 16%N)]
    = Some st' ∧
    EventBucketMemory.owns_its_objects st'.
Proof.
  destruct (calls_defined_and_as_list
              [(CallPutEvent RegistrationProgressEvent 7%N, 16%N);
               (CallHasEvent IRISEvent NULL, 24%N);
               (CallClear, 24%N);
               (CallPutEvent IRISEvent 7%N, 16%N)])
    as (st' & Hrun & Howns & _); [reflexivity|].
  by exists st'.
Defined.

(** the bucket of the session computes: the entry is there, a query for the
    base class finds it, and [Clear] leaves nothing *)
Example one_event_computes :
  EventBucketMemory.entries BucketSession.one_event
  = [(RegistrationProgressEvent, 7%N)] ∧
  EventBucketMemory.HasEvent BucketSession.one_event IRISEvent 7%N
  = Some true ∧
  EventBucketMemory.HasEvent BucketSession.one_event IRISEvent 9%N
  = Some false.
Proof. repeat split. Qed.

End MoreExamples.
